(** * git-agent: a tool-calling agent loop (src/main.py)

    A shallow embedding of [src/main.py]: three arithmetic tools, the
    assistant node, the router [tools_condition], and the graph that wires
    them into the loop  assistant -> router -> (tools -> assistant | END).

    Python integers are unbounded, so they are [Z].  A Python [float] is an
    IEEE-754 binary64 value, represented by the Standard Library's
    [spec_float].  A Python [dict] with string keys is a [gmap string _].
    Exceptions are the [Raise] branch of [result]; the text written by
    [print] is the first component of the [io] monad. *)

From Stdlib Require Import ZArith String List Lia.
From Stdlib.Floats Require Import SpecFloat.
From stdpp Require Import base option list strings gmap fin_maps.

Local Open Scope string_scope.
Local Open Scope list_scope.
Local Open Scope Z_scope.

(** ** Exceptions and the two monads *)

Inductive PyError : Set :=
  | KeyError
  | IndexError
  | AttributeError
  | ZeroDivisionError
  | OverflowError
  | UnknownTool
  | ValidationError
  | TransportError.

Inductive result (A : Type) : Type :=
  | Ok (a : A)
  | Raise (e : PyError).
Arguments Ok {A} a.
Arguments Raise {A} e.

#[global] Instance result_ret : MRet result := fun _ a => Ok a.
#[global] Instance result_bind : MBind result := fun _ _ f m =>
  match m with
  | Ok a => f a
  | Raise e => Raise e
  end.
#[global] Instance result_fmap : FMap result := fun _ _ f m =>
  match m with
  | Ok a => Ok (f a)
  | Raise e => Raise e
  end.

(** A computation that prints: the lines written to standard output, in
    order, and the value returned or the exception raised.  An exception
    keeps what was printed before it. *)
Definition io (A : Type) : Type := (list string * result A)%type.

#[global] Instance io_ret : MRet io := fun _ a => ([], Ok a).
#[global] Instance io_bind : MBind io := fun _ _ f m =>
  match m with
  | (out, Ok a) => let '(out', r) := f a in (out ++ out', r)
  | (out, Raise e) => (out, Raise e)
  end.

Definition print (line : string) : io unit := ([line], Ok tt).
Definition lift {A} (r : result A) : io A := ([], r).
Definition stdout {A} (c : io A) : list string := c.1.
Definition outcome {A} (c : io A) : result A := c.2.

(** ** Python's [int / int]

    True division of two integers gives the binary64 float nearest to the
    exact quotient (ties to even), raises [ZeroDivisionError] for a zero
    divisor and [OverflowError] when the rounded quotient does not fit a
    float. *)
Module PyFloat.

Definition prec : Z := 53.
Definition emax : Z := 1024.
Definition emin : Z := -1074.

(** [n / d] rounded to the nearest integer, ties to even ([0 <= n], [0 < d]). *)
Definition round_half_even (n d : Z) : Z :=
  let q := n / d in
  match 2 * (n mod d) ?= d with
  | Lt => q
  | Gt => q + 1
  | Eq => if Z.even q then q else q + 1
  end.

(** [n / (d * 2^e)] as a fraction of integers, for any sign of [e]. *)
Definition scaled_num (n e : Z) : Z := n * 2 ^ Z.max (- e) 0.
Definition scaled_den (d e : Z) : Z := d * 2 ^ Z.max e 0.

(** The [k] with [2^k <= n / d < 2^(k+1)] ([0 < n], [0 < d]). *)
Definition floor_log2_quot (n d : Z) : Z :=
  let k := Z.log2 n - Z.log2 d in
  if scaled_den d k <=? scaled_num n k then k else k - 1.

Definition normalize (m e : Z) : Z * Z :=
  if m =? 2 ^ prec then (2 ^ (prec - 1), e + 1) else (m, e).

Definition int_true_divide (a b : Z) : result spec_float :=
  if b =? 0 then Raise ZeroDivisionError
  else
    let negate := xorb (a <? 0) (b <? 0) in
    if a =? 0 then Ok (S754_zero negate)
    else
      let n := Z.abs a in
      let d := Z.abs b in
      let e0 := Z.max (floor_log2_quot n d - (prec - 1)) emin in
      let '(m, e) :=
        normalize (round_half_even (scaled_num n e0) (scaled_den d e0)) e0 in
      if emax - prec <? e then Raise OverflowError
      else if m =? 0 then Ok (S754_zero negate)
      else Ok (S754_finite negate (Z.to_pos m) e).

(** The float is a well-formed binary64 value. *)
Definition valid (f : spec_float) : Prop := valid_binary prec emax f = true.

(** Signed mantissa and exponent: the float is [mantissa * 2^exponent]. *)
Definition mantissa (f : spec_float) : Z :=
  match f with
  | S754_finite s m _ => if s then Z.neg m else Z.pos m
  | _ => 0
  end.
Definition exponent (f : spec_float) : Z :=
  match f with
  | S754_finite _ _ e => e
  | _ => emin
  end.
Definition is_finite (f : spec_float) : bool :=
  match f with
  | S754_zero _ | S754_finite _ _ _ => true
  | _ => false
  end.

(** [f] is within half a unit in the last place of the exact quotient
    [a / b]:  |f - a/b| <= 2^exponent / 2, with both sides multiplied by
    [|b|] and by the power of two that clears a negative exponent. *)
Definition within_half_ulp (f : spec_float) (a b : Z) : Prop :=
  let e := exponent f in
  2 * Z.abs (scaled_den (mantissa f * b) e - scaled_num a e)
    <= scaled_den (Z.abs b) e.

(** The largest magnitude that still rounds to a float, times [2^(-970)]:
    [2^1024 - 2^970 = overflow_threshold * 2^970]. *)
Definition overflow_threshold : Z := 2 ^ (prec + 1) - 1.
Definition overflows (a b : Z) : Prop :=
  overflow_threshold * 2 ^ (emax - prec - 1) * Z.abs b <= Z.abs a.

End PyFloat.

(** ** The tools (src/main.py, lines 24-39) *)

Definition add (a b : Z) : Z := a + b.

Definition multiply (a b : Z) : Z := a + b.

Definition divide (a b : Z) : result spec_float := PyFloat.int_true_divide a b.

(** ** Messages

    Modelled from the spec: the message classes ([BaseMessage] and its
    subclasses, imported from langchain_core) are not under src/.  Spec §3
    gives a tagged union with a text content, an ordered list of tool-call
    requests on Assistant messages only, and a tool-call identifier and
    return value on ToolResult messages only.  An Assistant message whose
    request list is absent carries [None]. *)

Inductive PyVal : Type :=
  | VInt (z : Z)
  | VFloat (f : spec_float)
  | VStr (s : string).

Record ToolCall : Type := {
  call_id : string;
  call_name : string;
  call_args : gmap string PyVal;
}.

Inductive BaseMessage : Type :=
  | SystemMessage (content : string)
  | HumanMessage (content : string)
  | AIMessage (content : string) (calls : option (list ToolCall))
  | ToolMessage (content : PyVal) (tool_call_id : string).

(** [message.tool_calls]: only an Assistant message has the attribute. *)
Definition tool_calls (message : BaseMessage) : result (option (list ToolCall)) :=
  match message with
  | AIMessage _ calls => Ok calls
  | _ => Raise AttributeError
  end.

(** Python's truth value of [message.tool_calls]: [None] and the empty list
    are false. *)
Definition truthy (calls : option (list ToolCall)) : bool :=
  match calls with
  | Some (_ :: _) => true
  | _ => false
  end.

(** [d[key]] on a dict and [l[-1]] on a list. *)
Definition getitem {V} (d : gmap string V) (key : string) : result V :=
  match d !! key with
  | Some v => Ok v
  | None => Raise KeyError
  end.

Definition last_item {A} (l : list A) : result A :=
  match last l with
  | Some x => Ok x
  | None => Raise IndexError
  end.

(** ** Graph state (src/main.py, lines 49-50)

    [AgentState] is a dict with the one declared key ["messages"]; a node
    returns a partial state, a dict of the keys it writes.  The reducer
    declared for ["messages"] is [operator.add], list concatenation. *)
Abbreviation AgentState := (gmap string (list BaseMessage)).

Definition operator_add (old new : list BaseMessage) : list BaseMessage :=
  old ++ new.

Definition messages_of (state : AgentState) : list BaseMessage :=
  default [] (state !! "messages").

(** ** The registered tools

    Modelled from the spec: the [@tool] decorator of langchain_core is not
    under src/.  Spec §3 and §4.4: a tool has a unique name (the function's
    name), a description (the docstring), a parameter schema and the
    function; the arguments of a request are validated against the declared
    parameter types before the function is called. *)
Record Tool : Type := {
  tool_name : string;
  tool_description : string;
  tool_invoke : gmap string PyVal -> result PyVal;
}.

Definition int_arg (args : gmap string PyVal) (param : string) : result Z :=
  match args !! param with
  | Some (VInt z) => Ok z
  | _ => Raise ValidationError
  end.

Definition tool (name description : string) (f : Z -> Z -> result PyVal) : Tool :=
  {| tool_name := name;
     tool_description := description;
     tool_invoke := fun args =>
       a ← int_arg args "a"; b ← int_arg args "b"; f a b |}.

Definition add_tool : Tool :=
  tool "add" "Adds a and b." (fun a b => Ok (VInt (add a b))).
Definition multiply_tool : Tool :=
  tool "multiply" "Multiplies a and b." (fun a b => Ok (VInt (multiply a b))).
Definition divide_tool : Tool :=
  tool "divide" "Divide a and b." (fun a b => VFloat <$> divide a b).

Definition tools : list Tool := [add_tool; multiply_tool; divide_tool].

(** ** The tool-execution step (src/main.py, line 63)

    Modelled from the spec: [ToolNode] of langgraph.prebuilt is not under
    src/.  Spec §4.4: one ToolResult message per request on the latest
    Assistant message, in the order listed; for each request, look the tool
    up by name (UnknownTool when absent), validate the arguments, call the
    function and wrap the return value with the identifier of the request.
    Any failure is fatal to the step (spec §7). *)
Definition find_tool (registry : list Tool) (name : string) : result Tool :=
  match List.find (fun t => String.eqb (tool_name t) name) registry with
  | Some t => Ok t
  | None => Raise UnknownTool
  end.

Definition run_tool_call (registry : list Tool) (call : ToolCall) : result BaseMessage :=
  t ← find_tool registry (call_name call);
  value ← tool_invoke t (call_args call);
  mret (ToolMessage value (call_id call)).

Fixpoint run_tool_calls (registry : list Tool) (calls : list ToolCall)
  : result (list BaseMessage) :=
  match calls with
  | [] => Ok []
  | call :: rest =>
      message ← run_tool_call registry call;
      messages ← run_tool_calls registry rest;
      mret (message :: messages)
  end.

Definition ToolNode (registry : list Tool) (state : AgentState) : io AgentState :=
  messages ← lift (getitem state "messages");
  last_message ← lift (last_item messages);
  calls ← lift (tool_calls last_message);
  results ← lift (run_tool_calls registry (default [] calls));
  mret {[ "messages" := results ]}.

Definition tool_node : AgentState -> io AgentState := ToolNode tools.

(** ** Graph nodes and the router (src/main.py, lines 54-77) *)

Inductive Node : Type :=
  | START
  | Named (name : string)
  | END.

Section Agent.

(** [llm_with_tools.invoke]: the hosted model, given the conversation,
    answers with a message or fails. *)
Variable llm_with_tools : list BaseMessage -> result BaseMessage.

Definition assistant_node (state : AgentState) : io AgentState :=
  _ ← print "---NODE: Assistant---";
  messages ← lift (getitem state "messages");
  response ← lift (llm_with_tools messages);
  mret {[ "messages" := [response] ]}.

Definition tools_condition (state : AgentState) : io Node :=
  _ ← print "---CONDITION: Checking for Tool Calls---";
  messages ← lift (getitem state "messages");
  last_message ← lift (last_item messages);
  calls ← lift (tool_calls last_message);
  if truthy calls then mret (Named "tools") else mret END.

End Agent.

(** ** The graph and its driver loop (src/main.py, lines 80-98)

    Modelled from the spec: [StateGraph], its builder methods, [compile]
    and [stream] belong to langgraph and are not under src/.  Spec §3 and
    §4.6: the state has one writer, the step being executed; the update a
    node returns is merged key by key with the reducer (concatenate the new
    messages to the existing sequence); steps run strictly one after the
    other, following the edge or the router of the node just executed. *)
#[global] Instance Node_eq_dec : EqDecision Node.
Proof. solve_decision. Defined.

Record StateGraph : Type := {
  nodes : gmap string (AgentState -> io AgentState);
  edges : list (Node * Node);
  branches : gmap string (AgentState -> io Node);
}.

Definition new_graph : StateGraph :=
  {| nodes := ∅; edges := []; branches := ∅ |}.

Definition add_node (name : string) (action : AgentState -> io AgentState)
    (g : StateGraph) : StateGraph :=
  {| nodes := <[name := action]> (nodes g);
     edges := edges g;
     branches := branches g |}.

Definition add_edge (source target : Node) (g : StateGraph) : StateGraph :=
  {| nodes := nodes g;
     edges := edges g ++ [(source, target)];
     branches := branches g |}.

Definition add_conditional_edges (source : string) (path : AgentState -> io Node)
    (g : StateGraph) : StateGraph :=
  {| nodes := nodes g;
     edges := edges g;
     branches := <[source := path]> (branches g) |}.

(** The reducer applied to every key the update writes. *)
Definition apply_update (state update : AgentState) : AgentState :=
  union_with (fun old new => Some (operator_add old new)) state update.

Definition outgoing (g : StateGraph) (source : Node) : Node :=
  match List.find (fun e => bool_decide (e.1 = source)) (edges g) with
  | Some e => e.2
  | None => END
  end.

Definition route (g : StateGraph) (name : string) (state : AgentState) : io Node :=
  match branches g !! name with
  | Some path => path state
  | None => mret (outgoing g (Named name))
  end.

(** One step of the loop: run the node, merge its update, pick the next
    node.  The result is the update, the new state and the next node. *)
Definition run_node (g : StateGraph) (name : string) (state : AgentState)
  : io (AgentState * AgentState * Node) :=
  action ← lift (getitem (nodes g) name);
  update ← action state;
  let state' := apply_update state update in
  next ← route g name state';
  mret (update, state', next).

(** What [stream] has done when it stops or when [fuel] steps are used up:
    the events yielded (node name and update, one per executed step), the
    node it stands at ([END] when the run is over) and the state. *)
Record Progress : Type := {
  events : list (string * AgentState);
  position : Node;
  current : AgentState;
}.

Fixpoint run (g : StateGraph) (fuel : nat) (node : Node) (state : AgentState)
  : io Progress :=
  match fuel with
  | O => mret {| events := []; position := node; current := state |}
  | S fuel' =>
      match node with
      | END => mret {| events := []; position := END; current := state |}
      | START => run g fuel' (outgoing g START) state
      | Named name =>
          '(update, state', next) ← run_node g name state;
          rest ← run g fuel' next state';
          mret {| events := (name, update) :: events rest;
                  position := position rest;
                  current := current rest |}
      end
  end.

Definition stream (g : StateGraph) (fuel : nat) (input : AgentState) : io Progress :=
  run g fuel START (apply_update ∅ input).

Section Graph.

Variable llm_with_tools : list BaseMessage -> result BaseMessage.

Definition builder : StateGraph :=
  let builder := new_graph in
  let builder := add_node "assistant" (assistant_node llm_with_tools) builder in
  let builder := add_node "tools" tool_node builder in
  let builder := add_edge START (Named "assistant") builder in
  let builder := add_conditional_edges "assistant" tools_condition builder in
  let builder := add_edge (Named "tools") (Named "assistant") builder in
  builder.

Definition graph : StateGraph := builder.

End Graph.

Definition inputs : list BaseMessage :=
  [HumanMessage "What is the result of multiplying 12 by 5, and then adding 15 to that?"].

(** ** Vocabulary of the properties *)

(** The lines the two nodes print. *)
Definition condition_line : string := "---CONDITION: Checking for Tool Calls---".
Definition assistant_line : string := "---NODE: Assistant---".

(** The messages each executed step appended, in order of execution. *)
Definition appended (progress : Progress) : list (list BaseMessage) :=
  map (fun event => messages_of event.2) (events progress).

(** A request and the ToolResult message made for it: the tool of that name
    was found and called on the arguments of the request, and the message
    carries the value returned and the identifier of the request. *)
Definition answers (registry : list Tool) (call : ToolCall) (message : BaseMessage) : Prop :=
  exists t value,
    find_tool registry (call_name call) = Ok t
    /\ tool_invoke t (call_args call) = Ok value
    /\ message = ToolMessage value (call_id call).

(** A request for [add(1, 1)], and a model client that answers every
    conversation with that request. *)
Definition sample_call : ToolCall :=
  {| call_id := "call_1"; call_name := "add";
     call_args := {[ "a" := VInt 1; "b" := VInt 1 ]} |}.

Definition insistent_llm (messages : list BaseMessage) : result BaseMessage :=
  Ok (AIMessage "" (Some [sample_call])).

(** A model client that answers at once, with no request. *)
Definition final_llm (messages : list BaseMessage) : result BaseMessage :=
  Ok (AIMessage "75" None).

(** The node names of [steps] steps of a loop alternating two nodes. *)
Fixpoint loop_names (steps : nat) (name other : string) : list string :=
  match steps with
  | O => []
  | S steps' => name :: loop_names steps' other name
  end.

(** The lines a step prints: the assistant step and the router that follows
    it print one line each, the tool-execution step prints nothing. *)
Definition lines_of (name : string) : list string :=
  if String.eqb name "assistant" then [assistant_line; condition_line] else [].

(** Two consecutive events of a run: an assistant step whose response
    carries requests, followed by the tool-execution step that answers
    them; or a tool-execution step followed by an assistant step. *)
Definition follows (registry : list Tool) (first second : string * AgentState) : Prop :=
  (first.1 = "assistant" /\ second.1 = "tools"
   /\ exists content calls results,
        first.2 = {[ "messages" := [AIMessage content (Some calls)] ]}
        /\ calls <> []
        /\ second.2 = {[ "messages" := results ]}
        /\ Forall2 (answers registry) calls results)
  \/ (first.1 = "tools" /\ second.1 = "assistant").

(** [R] holds of every two consecutive elements of the list. *)
Fixpoint chained {A} (R : A -> A -> Prop) (l : list A) : Prop :=
  match l with
  | x :: (y :: _) as rest => R x y /\ chained R rest
  | _ => True
  end.

(** A run of the graph, step by step: from a node and a state, the lines
    printed, the events yielded, and the node and state where it stands. *)
Inductive loop (llm : list BaseMessage -> result BaseMessage)
  : Node -> AgentState -> list string -> list (string * AgentState)
    -> Node -> AgentState -> Prop :=
  | loop_stop node state :
      loop llm node state [] [] node state
  | loop_start state out evs pos final :
      loop llm (Named "assistant") state out evs pos final ->
      loop llm START state out evs pos final
  | loop_assistant state messages response next out evs pos final :
      state !! "messages" = Some messages ->
      llm messages = Ok response ->
      tools_condition (apply_update state {[ "messages" := [response] ]})
        = ([condition_line], Ok next) ->
      loop llm next (apply_update state {[ "messages" := [response] ]})
           out evs pos final ->
      loop llm (Named "assistant") state
           (assistant_line :: condition_line :: out)
           (("assistant", {[ "messages" := [response] ]}) :: evs) pos final
  | loop_tools state before content calls results out evs pos final :
      state !! "messages" = Some (before ++ [AIMessage content calls]) ->
      run_tool_calls tools (default [] calls) = Ok results ->
      loop llm (Named "assistant")
           (apply_update state {[ "messages" := results ]}) out evs pos final ->
      loop llm (Named "tools") state out
           (("tools", {[ "messages" := results ]}) :: evs) pos final.

(** The progress of a run that has not failed. *)
Definition progress_of (c : io Progress) : Progress :=
  match outcome c with
  | Ok progress => progress
  | Raise _ => {| events := []; position := START; current := ∅ |}
  end.

(** Two sample runs: one that is over after the first answer, and four
    steps of one that goes on requesting a tool. *)
Definition final_run : io Progress :=
  stream (graph final_llm) 5 {[ "messages" := inputs ]}.
Definition insistent_run : io Progress :=
  stream (graph insistent_llm) 4 {[ "messages" := inputs ]}.

(** The float is the integer [q] exactly: mantissa * 2^exponent = q, with
    both sides multiplied by the power of two that clears a negative
    exponent. *)
Definition exactly (f : spec_float) (q : Z) : Prop :=
  PyFloat.scaled_den (PyFloat.mantissa f) (PyFloat.exponent f)
  = PyFloat.scaled_num q (PyFloat.exponent f).

(** The float with its sign replaced. *)
Definition set_sign (s : bool) (f : spec_float) : spec_float :=
  match f with
  | S754_zero _ => S754_zero s
  | S754_infinity _ => S754_infinity s
  | S754_nan => S754_nan
  | S754_finite _ m e => S754_finite s m e
  end.

(** * Properties *)

(** ** Unfolding the monads *)

Lemma io_bind_ok {A B} (out : list string) (a : A) (f : A -> io B) :
  ((out, Ok a) : io A) ≫= f = (out ++ (f a).1, (f a).2).
Proof. unfold mbind, io_bind. by destruct (f a). Qed.

Lemma io_bind_raise {A B} (out : list string) (e : PyError) (f : A -> io B) :
  ((out, Raise e) : io A) ≫= f = (out, Raise e).
Proof. done. Qed.

Lemma io_bind_lift {A B} (r : result A) (f : A -> io B) :
  lift r ≫= f = match r with Ok a => f a | Raise e => ([], Raise e) end.
Proof. unfold lift. destruct r as [a|e]; [|done]. rewrite io_bind_ok. by destruct (f a). Qed.

Lemma io_bind_print {B} (line : string) (f : unit -> io B) :
  print line ≫= f = (line :: (f tt).1, (f tt).2).
Proof. unfold print. by rewrite io_bind_ok. Qed.

Lemma last_item_snoc {A} (l : list A) (x : A) : last_item (l ++ [x]) = Ok x.
Proof. unfold last_item. by rewrite last_snoc. Qed.

Lemma last_item_nil {A} : last_item (@nil A) = Raise IndexError.
Proof. done. Qed.

Lemma last_item_raise {A} (l : list A) e : last_item l = Raise e -> l = [].
Proof.
  unfold last_item. destruct l as [|x l]; [done|].
  destruct (last (x :: l)) eqn:E; [done|].
  by apply last_None in E.
Qed.

(** ** The router *)

(** The router prints its line, then reads the route off the truth value of
    the [tool_calls] attribute of the last message. *)
Lemma tools_condition_eq (state : AgentState) :
  tools_condition state =
    ([condition_line],
     messages ← getitem state "messages";
     last_message ← last_item messages;
     calls ← tool_calls last_message;
     mret (if truthy calls then Named "tools" else END)).
Proof.
  unfold tools_condition. rewrite io_bind_print, io_bind_lift.
  destruct (getitem state "messages") as [messages|e];
    cbn [mbind result_bind]; [|done].
  rewrite io_bind_lift.
  destruct (last_item messages) as [last_message|e];
    cbn [mbind result_bind]; [|done].
  rewrite io_bind_lift.
  destruct (tool_calls last_message) as [calls|e];
    cbn [mbind result_bind]; [|done].
  by destruct (truthy calls).
Qed.

Lemma tools_condition_last (state : AgentState) before last_message :
  state !! "messages" = Some (before ++ [last_message]) ->
  tools_condition state =
    ([condition_line],
     calls ← tool_calls last_message;
     mret (if truthy calls then Named "tools" else END)).
Proof.
  intros Hm. rewrite tools_condition_eq. unfold getitem. rewrite Hm.
  cbn [mbind result_bind]. by rewrite last_item_snoc.
Qed.

(** C1.  When the latest message is an Assistant message, the router
    returns the route to the "tools" node if the message carries a non-empty
    list of tool-call requests, and END if the list is empty or absent,
    whatever the text content of the message. *)
Theorem tools_condition_routes (state : AgentState) before content calls :
  state !! "messages" = Some (before ++ [AIMessage content calls]) ->
  ((exists request rest, calls = Some (request :: rest)) ->
     tools_condition state = ([condition_line], Ok (Named "tools")))
  /\ (calls = Some [] \/ calls = None ->
     tools_condition state = ([condition_line], Ok END)).
Proof.
  intros Hm. rewrite (tools_condition_last _ _ _ Hm). cbn.
  split.
  - by intros (request & rest & ->).
  - by intros [-> | ->].
Qed.

Lemma tools_condition_routes_witness :
  tools_condition {[ "messages" := inputs ++ [AIMessage "" (Some [sample_call])] ]}
    = ([condition_line], Ok (Named "tools"))
  /\ tools_condition {[ "messages" := inputs ++ [AIMessage "75" (Some [])] ]}
    = ([condition_line], Ok END).
Proof.
  split.
  - apply (tools_condition_routes _ inputs "" (Some [sample_call])).
    + reflexivity.
    + exists sample_call, []. reflexivity.
  - apply (tools_condition_routes _ inputs "75" (Some [])).
    + reflexivity.
    + left. reflexivity.
Defined.

(** C9.  The router depends on the latest message only: two states whose
    latest messages are equal get the same printed line and the same route
    (or the same failure), whatever the earlier messages and the other keys
    of the two states are. *)
Theorem tools_condition_latest_only (state1 state2 : AgentState)
    before1 before2 last_message :
  state1 !! "messages" = Some (before1 ++ [last_message]) ->
  state2 !! "messages" = Some (before2 ++ [last_message]) ->
  tools_condition state1 = tools_condition state2.
Proof.
  intros H1 H2.
  by rewrite (tools_condition_last _ _ _ H1), (tools_condition_last _ _ _ H2).
Qed.

Lemma tools_condition_latest_only_witness :
  tools_condition {[ "messages" := inputs ++ [AIMessage "75" None] ]}
  = tools_condition {[ "messages" := [AIMessage "75" None] ]}.
Proof.
  apply (tools_condition_latest_only _ _ inputs [] (AIMessage "75" None));
    reflexivity.
Defined.

(** C10.  On a state whose message sequence is empty, the access to the
    latest message fails with IndexError and the router returns no route. *)
Theorem tools_condition_needs_message (state : AgentState) :
  state !! "messages" = Some [] ->
  tools_condition state = ([condition_line], Raise IndexError)
  /\ forall next, outcome (tools_condition state) <> Ok next.
Proof.
  intros Hm. rewrite tools_condition_eq. unfold getitem. rewrite Hm.
  by split.
Qed.

Lemma tools_condition_needs_message_witness :
  tools_condition {[ "messages" := [] ]} = ([condition_line], Raise IndexError)
  /\ forall next, outcome (tools_condition {[ "messages" := [] ]}) <> Ok next.
Proof.
  apply (tools_condition_needs_message {[ "messages" := [] ]}). reflexivity.
Defined.

(** The converse: IndexError is raised only on an empty sequence. *)
Lemma tools_condition_index_error (state : AgentState) messages :
  state !! "messages" = Some messages ->
  outcome (tools_condition state) = Raise IndexError -> messages = [].
Proof.
  intros Hm. rewrite tools_condition_eq. unfold getitem, outcome. rewrite Hm.
  cbn. destruct (last_item messages) as [m|e] eqn:E.
  - destruct m; cbn; discriminate.
  - intros _. by apply last_item_raise in E.
Qed.

(** A latest message of another role has no [tool_calls] attribute. *)
Lemma tools_condition_attribute_error (state : AgentState) before last_message :
  state !! "messages" = Some (before ++ [last_message]) ->
  tool_calls last_message = Raise AttributeError ->
  tools_condition state = ([condition_line], Raise AttributeError).
Proof.
  intros Hm Ha. rewrite (tools_condition_last _ _ _ Hm). by rewrite Ha.
Qed.

(** ** Python's true division *)

Import PyFloat.

(** *** Rounding to the nearest integer, ties to even *)

Section RoundHalfEven.
Variables N D : Z.
Hypothesis D_pos : 0 < D.

Lemma round_half_even_cases :
  let q := N / D in let r := N mod D in
  N = D * q + r /\ 0 <= r < D /\
  ((2 * r < D /\ round_half_even N D = q)
   \/ (D < 2 * r /\ round_half_even N D = q + 1)
   \/ (2 * r = D /\ Z.even q = true /\ round_half_even N D = q)
   \/ (2 * r = D /\ Z.even q = false /\ round_half_even N D = q + 1)).
Proof.
  intros q r. split; [apply Z.div_mod; lia|].
  split; [apply Z.mod_pos_bound; lia|].
  unfold round_half_even. fold q r.
  destruct (Z.compare_spec (2 * r) D) as [H|H|H]; [|by left|by right; left].
  right; right. destruct (Z.even q); [by left | by right].
Qed.

Lemma round_half_even_error : 2 * Z.abs (round_half_even N D * D - N) <= D.
Proof.
  destruct round_half_even_cases as (HN & Hr & Hc).
  destruct Hc as [[? ->]|[[? ->]|[(? & _ & ->)|(? & _ & ->)]]]; nia.
Qed.

Lemma round_half_even_lower c : c * D <= N -> c <= round_half_even N D.
Proof.
  intros Hc. destruct round_half_even_cases as (HN & Hr & Hcase).
  assert (c <= N / D) by (apply Z.div_le_lower_bound; lia).
  destruct Hcase as [[? ->]|[[? ->]|[(? & _ & ->)|(? & _ & ->)]]]; lia.
Qed.

Lemma round_half_even_upper c : N <= c * D -> round_half_even N D <= c.
Proof.
  intros Hc. destruct round_half_even_cases as (HN & Hr & Hcase).
  destruct Hcase as [[? ->]|[[? ->]|[(? & _ & ->)|(? & _ & ->)]]]; nia.
Qed.

Lemma round_half_even_tie_up c :
  Z.even c = true -> (2 * c - 1) * D <= 2 * N -> c <= round_half_even N D.
Proof.
  intros Hev Hc. destruct round_half_even_cases as (HN & Hr & Hcase).
  assert (Hq : c - 1 <= N / D) by (apply Z.div_le_lower_bound; nia).
  destruct Hcase as [[? ->]|[[? ->]|[(? & Hq' & ->)|(? & _ & ->)]]]; try nia.
  destruct (Z.eq_dec (N / D) (c - 1)) as [E|]; [|lia].
  rewrite E in Hq'. replace (c - 1) with (Z.pred c) in Hq' by lia.
  rewrite Z.even_pred in Hq'. rewrite <- Z.negb_even in Hq'.
  rewrite Hev in Hq'. done.
Qed.

End RoundHalfEven.

(** *** Fractions scaled by a power of two *)

Lemma pow2_succ e : 0 <= e -> 2 ^ (e + 1) = 2 * 2 ^ e.
Proof. intros. rewrite Z.pow_add_r by lia. lia. Qed.

(** Clearing the scaling: for [K] large enough, the fraction
    [scaled_num y e / scaled_den x e] is [(y * 2^K) / (x * 2^(K + e))]. *)
Lemma scaled_common K e x y :
  0 <= K -> 0 <= K + e ->
  exists W, 0 < W
    /\ scaled_den x e * W = x * 2 ^ (K + e)
    /\ scaled_num y e * W = y * 2 ^ K.
Proof.
  intros HK HKe. exists (2 ^ (K - Z.max (- e) 0)).
  split; [apply Z.pow_pos_nonneg; lia|].
  unfold scaled_den, scaled_num.
  rewrite <- !Z.mul_assoc, <- !Z.pow_add_r by lia.
  split; do 2 f_equal; lia.
Qed.

Lemma scaled_le_den_num K e c c' x y :
  0 <= K -> 0 <= K + e ->
  c * scaled_den x e <= c' * scaled_num y e
  <-> c * (x * 2 ^ (K + e)) <= c' * (y * 2 ^ K).
Proof.
  intros HK HKe. destruct (scaled_common K e x y HK HKe) as (W & HW & <- & <-).
  rewrite !Z.mul_assoc. apply Z.mul_le_mono_pos_r. done.
Qed.

Lemma scaled_le_num_den K e c c' x y :
  0 <= K -> 0 <= K + e ->
  c' * scaled_num y e <= c * scaled_den x e
  <-> c' * (y * 2 ^ K) <= c * (x * 2 ^ (K + e)).
Proof.
  intros HK HKe. destruct (scaled_common K e x y HK HKe) as (W & HW & <- & <-).
  rewrite !Z.mul_assoc. apply Z.mul_le_mono_pos_r. done.
Qed.

Lemma scaled_lt_num_den K e c c' x y :
  0 <= K -> 0 <= K + e ->
  c' * scaled_num y e < c * scaled_den x e
  <-> c' * (y * 2 ^ K) < c * (x * 2 ^ (K + e)).
Proof.
  intros HK HKe. destruct (scaled_common K e x y HK HKe) as (W & HW & <- & <-).
  rewrite !Z.mul_assoc. apply Z.mul_lt_mono_pos_r. done.
Qed.

Lemma scaled_den_pos d e : 0 < d -> 0 < scaled_den d e.
Proof. intros. unfold scaled_den. apply Z.mul_pos_pos; [done|]. apply Z.pow_pos_nonneg; lia. Qed.

Lemma scaled_num_pos n e : 0 < n -> 0 < scaled_num n e.
Proof. intros. unfold scaled_num. apply Z.mul_pos_pos; [done|]. apply Z.pow_pos_nonneg; lia. Qed.

(** [floor_log2_quot n d] is the [k] with [2^k <= n / d < 2^(k+1)]. *)
Lemma floor_log2_quot_spec n d :
  0 < n -> 0 < d ->
  let k := floor_log2_quot n d in
  scaled_den d k <= scaled_num n k /\ scaled_num n k < 2 * scaled_den d k.
Proof.
  intros Hn Hd.
  destruct (Z.log2_spec n Hn) as [Hn1 Hn2], (Z.log2_spec d Hd) as [Hd1 Hd2].
  pose proof (Z.log2_nonneg n) as Hln. pose proof (Z.log2_nonneg d) as Hld.
  set (ln := Z.log2 n) in *. set (ld := Z.log2 d) in *.
  rewrite <- Z.add_1_r, pow2_succ in Hn2, Hd2 by done.
  assert (HP : 0 < 2 ^ ln) by (apply Z.pow_pos_nonneg; lia).
  assert (HQ : 0 < 2 ^ ld) by (apply Z.pow_pos_nonneg; lia).
  set (K := ld + 1).
  assert (HK : 2 ^ K = 2 * 2 ^ ld) by (unfold K; by rewrite pow2_succ).
  unfold floor_log2_quot. fold ln ld. cbv zeta.
  destruct (Z.leb_spec (scaled_den d (ln - ld)) (scaled_num n (ln - ld))) as [Hle|Hgt].
  - split; [done|].
    rewrite <- (Z.mul_1_l (scaled_num _ _)).
    apply (scaled_lt_num_den K); [lia..|].
    replace (K + (ln - ld)) with (ln + 1) by lia.
    rewrite pow2_succ, HK by done. nia.
  - rewrite <- (Z.mul_1_l (scaled_num _ _)), <- (Z.mul_1_l (scaled_den _ _)) in Hgt.
    apply (scaled_lt_num_den K) in Hgt; [|lia..].
    replace (K + (ln - ld)) with (ln + 1) in Hgt by lia.
    rewrite pow2_succ, HK in Hgt by done.
    split.
    + rewrite <- (Z.mul_1_l (scaled_num _ _)), <- (Z.mul_1_l (scaled_den _ _)).
      apply (scaled_le_den_num K); [lia..|].
      replace (K + (ln - ld - 1)) with ln by lia. rewrite HK. nia.
    + rewrite <- (Z.mul_1_l (scaled_num _ _)).
      apply (scaled_lt_num_den K); [lia..|].
      replace (K + (ln - ld - 1)) with ln by lia. rewrite HK. nia.
Qed.

(** *** The exponent and the mantissa of the quotient *)

(** The exponent chosen for the quotient [n / d] and the range of the
    quotient in units of that exponent. *)
Lemma quotient_range n d :
  0 < n -> 0 < d ->
  let k := floor_log2_quot n d in
  let e0 := Z.max (k - (prec - 1)) emin in
  let N := scaled_num n e0 in
  let D := scaled_den d e0 in
  (emin <= k - (prec - 1) -> 2 ^ (prec - 1) * D <= N /\ N < 2 ^ prec * D)
  /\ (k - (prec - 1) < emin -> N < 2 ^ (prec - 1) * D).
Proof.
  intros Hn Hd k e0 N D.
  destruct (floor_log2_quot_spec n d Hn Hd) as [Hlo Hhi]. fold k in Hlo, Hhi.
  set (K := Z.max (- k) 0 + 2000).
  assert (HK : 0 <= K /\ 0 <= K + k) by lia.
  rewrite <- (Z.mul_1_l (scaled_num _ _)), <- (Z.mul_1_l (scaled_den _ _)) in Hlo.
  apply (scaled_le_den_num K) in Hlo; [|lia..].
  rewrite <- (Z.mul_1_l (scaled_num _ _)) in Hhi.
  apply (scaled_lt_num_den K) in Hhi; [|lia..].
  assert (HA : 0 < n * 2 ^ K) by (apply Z.mul_pos_pos; [done | apply Z.pow_pos_nonneg; lia]).
  unfold prec, emin in *. change (53 - 1) with 52 in *.
  split; intros Hk.
  - assert (He : e0 = k - 52) by (unfold e0; lia).
    assert (Hp : 2 ^ (K + k) = 2 ^ (K + e0) * 2 ^ 52).
    { rewrite <- Z.pow_add_r by lia. f_equal. lia. }
    rewrite Hp in Hlo, Hhi.
    assert (HB : 0 < d * 2 ^ (K + e0)) by (apply Z.mul_pos_pos; [done | apply Z.pow_pos_nonneg; lia]).
    split.
    + rewrite <- (Z.mul_1_l N). apply (scaled_le_den_num K); [lia..|]. lia.
    + rewrite <- (Z.mul_1_l N). apply (scaled_lt_num_den K); [lia..|].
      change (2 ^ 53) with (2 * 2 ^ 52). lia.
  - assert (He : e0 = -1074) by (unfold e0; lia).
    rewrite <- (Z.mul_1_l N). apply (scaled_lt_num_den K); [lia..|].
    rewrite He.
    assert (Hp : 2 * 2 ^ (K + k) <= 2 ^ (K + -1074) * 2 ^ 52).
    { rewrite <- Z.pow_add_r, <- pow2_succ by lia.
      apply Z.pow_le_mono_r; lia. }
    nia.
Qed.

(** [2^j <= n / d] is read off [floor_log2_quot n d]. *)
Lemma floor_log2_quot_ge n d j :
  0 < n -> 0 < d -> 0 <= j ->
  j <= floor_log2_quot n d <-> d * 2 ^ j <= n.
Proof.
  intros Hn Hd Hj.
  destruct (floor_log2_quot_spec n d Hn Hd) as [Hlo Hhi].
  set (k := floor_log2_quot n d) in *.
  set (K := Z.max (- k) 0).
  rewrite <- (Z.mul_1_l (scaled_num _ _)), <- (Z.mul_1_l (scaled_den _ _)) in Hlo.
  apply (scaled_le_den_num K) in Hlo; [|lia..].
  rewrite <- (Z.mul_1_l (scaled_num _ _)) in Hhi.
  apply (scaled_lt_num_den K) in Hhi; [|lia..].
  assert (HK : 0 < 2 ^ K) by (apply Z.pow_pos_nonneg; lia).
  assert (Hj' : 2 ^ (K + j) = 2 ^ K * 2 ^ j) by (apply Z.pow_add_r; lia).
  split.
  - intros Hle.
    assert (2 ^ (K + j) <= 2 ^ (K + k)) by (apply Z.pow_le_mono_r; lia).
    nia.
  - intros Hle. destruct (Z_le_gt_dec j k) as [|Hgt]; [done|exfalso].
    assert (2 * 2 ^ (K + k) <= 2 ^ (K + j)).
    { rewrite <- pow2_succ by lia. apply Z.pow_le_mono_r; lia. }
    nia.
Qed.

Lemma overflows_iff a b :
  overflows a b <-> (2 ^ 54 - 1) * (Z.abs b * 2 ^ 971) <= 2 * Z.abs a.
Proof.
  unfold overflows, overflow_threshold, emax, prec.
  change (53 + 1) with 54. change (1024 - 53 - 1) with 970.
  change (2 ^ 971) with (2 * 2 ^ 970). lia.
Qed.

Lemma scaled_at_nonneg x y e :
  0 <= e -> scaled_den x e = x * 2 ^ e /\ scaled_num y e = y.
Proof.
  intros He. unfold scaled_den, scaled_num.
  rewrite Z.max_l, Z.max_r by lia. change (2 ^ 0) with 1. lia.
Qed.

(** The rounded mantissa and its exponent, after normalisation. *)
Lemma rounded_quotient n d :
  0 < n -> 0 < d ->
  let e0 := Z.max (floor_log2_quot n d - (prec - 1)) emin in
  let m0 := round_half_even (scaled_num n e0) (scaled_den d e0) in
  let over := (2 ^ 54 - 1) * (d * 2 ^ 971) <= 2 * n in
  (over -> emax - prec < (normalize m0 e0).2)
  /\ (~ over -> exists m e,
        normalize m0 e0 = (m, e)
        /\ emin <= e <= emax - prec
        /\ 0 <= m < 2 ^ prec
        /\ (emin < e -> 2 ^ (prec - 1) <= m)
        /\ (2 * m - 1) * scaled_den d e <= 2 * scaled_num n e
        /\ 2 * scaled_num n e <= (2 * m + 1) * scaled_den d e).
Proof.
  intros Hn Hd e0 m0 over.
  pose proof (quotient_range n d Hn Hd) as [HA HB].
  pose proof (floor_log2_quot_ge n d 1023 Hn Hd ltac:(lia)) as Hk1023.
  pose proof (floor_log2_quot_ge n d 1024 Hn Hd ltac:(lia)) as Hk1024.
  set (k := floor_log2_quot n d) in *. fold e0 in HA, HB.
  pose proof (scaled_den_pos d e0 Hd) as HD.
  pose proof (scaled_num_pos n e0 Hn) as HN.
  assert (H971 : e0 = 971 ->
                 scaled_den d e0 = d * 2 ^ 971 /\ scaled_num n e0 = n).
  { intros ->. by apply scaled_at_nonneg. }
  assert (Hnext : (2 * scaled_den d e0 <= scaled_den d (e0 + 1)
                   /\ scaled_den d (e0 + 1) <= 2 * scaled_den d e0)
                  /\ scaled_num n (e0 + 1) = scaled_num n e0
                  \/ scaled_den d (e0 + 1) = scaled_den d e0
                  /\ 2 * scaled_num n (e0 + 1) = scaled_num n e0).
  { unfold scaled_den, scaled_num. destruct (Z_le_gt_dec 0 e0) as [He|He].
    - left. rewrite !Z.max_l, !Z.max_r by lia. rewrite pow2_succ by done. lia.
    - right. rewrite !Z.max_r, !Z.max_l by lia.
      replace (- e0) with (- (e0 + 1) + 1) by lia.
      rewrite pow2_succ by lia. lia. }
  set (N := scaled_num n e0) in *. set (D := scaled_den d e0) in *.
  set (N' := scaled_num n (e0 + 1)) in *. set (D' := scaled_den d (e0 + 1)) in *.
  pose proof (round_half_even_error N D HD) as Herr. fold m0 in Herr.
  assert (Hm0 : 0 <= m0) by (apply round_half_even_lower; lia).
  assert (Hp : 2 ^ 1023 = 2 ^ 52 * 2 ^ 971 /\ 2 ^ 1024 = 2 * 2 ^ 52 * 2 ^ 971
               /\ 2 ^ 54 = 4 * 2 ^ 52 /\ 2 ^ 53 = 2 * 2 ^ 52 /\ 0 < 2 ^ 971
               /\ 0 < 2 ^ 52 /\ Z.even (2 * 2 ^ 52) = true)
    by (vm_compute; intuition congruence).
  destruct Hp as (Hp1023 & Hp1024 & Hp54 & Hp53 & Hp971 & Hp52 & Heven).
  unfold normalize, prec, emin, emax in *. change (53 - 1) with 52 in *.
  change (1024 - 53) with 971.
  rewrite Hp1023 in Hk1023. rewrite Hp1024 in Hk1024.
  unfold over. rewrite Hp54, Hp53 in *.
  generalize dependent (2 ^ 971). intros P971 **.
  generalize dependent (2 ^ 52). intros P52 **.
  split.
  - intros Hover.
    assert (Hk : 1023 <= k) by (apply Hk1023; nia).
    destruct (HA ltac:(lia)) as [Hlo Hhi].
    assert (He0 : e0 = k - 52) by (unfold e0; lia).
    destruct (Z.eqb_spec m0 (2 * P52)) as [Hm|Hm]; cbn [snd]; [lia|].
    destruct (Z_le_gt_dec 1024 k) as [|Hk']; [lia|exfalso].
    destruct (H971 ltac:(lia)) as [HD971 HN971].
    assert (Hup : m0 <= 2 * P52) by (apply round_half_even_upper; lia).
    assert (Hge : 2 * P52 <= m0).
    { apply round_half_even_tie_up; [done..|]. rewrite HD971, HN971. lia. }
    lia.
  - intros Hnover.
    assert (Hk : k <= 1023).
    { destruct (Z_le_gt_dec 1024 k) as [Hk|]; [|lia].
      apply Hk1024 in Hk. nia. }
    destruct (Z_le_gt_dec (-1074) (k - 52)) as [Hcase|Hcase].
    + destruct (HA Hcase) as [Hlo Hhi].
      assert (He0 : e0 = k - 52) by (unfold e0; lia).
      assert (Hup : m0 <= 2 * P52) by (apply round_half_even_upper; lia).
      assert (Hge : P52 <= m0) by (apply round_half_even_lower; lia).
      destruct (Z.eqb_spec m0 (2 * P52)) as [Hm|Hm].
      * exists P52, (e0 + 1).
        assert (He : e0 <> 971).
        { intros He. destruct (H971 He) as [HD971 HN971].
          apply Hnover. rewrite <- HD971, <- HN971. lia. }
        split; [done|]. split; [lia|]. split; [lia|]. split; [lia|].
        fold N' D'. nia.
      * exists m0, e0. split; [done|]. split; [lia|]. split; [lia|].
        split; [lia|]. lia.
    + pose proof (HB ltac:(lia)) as Hhi.
      assert (He0 : e0 = -1074) by (unfold e0; lia).
      assert (Hup : m0 <= P52) by (apply round_half_even_upper; lia).
      destruct (Z.eqb_spec m0 (2 * P52)) as [Hm|Hm]; [lia|].
      exists m0, e0. split; [done|]. split; [lia|]. split; [lia|].
      split; [lia|]. lia.
Qed.

(** *** The float returned *)

Lemma digits2_pos_log2 p : Z.pos (digits2_pos p) = Z.log2 (Z.pos p) + 1.
Proof.
  assert (Hsize : forall q, digits2_pos q = Pos.size q).
  { induction q as [q IH|q IH|]; cbn; by rewrite ?IH. }
  destruct p as [p|p|]; cbn; rewrite ?Hsize; lia.
Qed.

Lemma valid_finite s m e :
  emin <= e <= emax - prec ->
  0 < m < 2 ^ prec ->
  (emin < e -> 2 ^ (prec - 1) <= m) ->
  valid (S754_finite s (Z.to_pos m) e).
Proof.
  intros He Hm Hnormal.
  unfold valid, valid_binary, bounded, canonical_mantissa, fexp, SpecFloat.emin.
  rewrite digits2_pos_log2, Z2Pos.id by lia.
  assert (Hlt : Z.log2 m < prec) by (apply Z.log2_lt_pow2; lia).
  unfold prec, emax, emin in *.
  apply andb_true_intro. split; [|apply Z.leb_le; lia].
  apply Z.eqb_eq.
  destruct (Z_le_gt_dec e (-1074)) as [Hsub|Hnorm]; [lia|].
  assert (53 - 1 <= Z.log2 m) by (apply Z.log2_le_pow2; lia).
  lia.
Qed.

Lemma int_true_divide_nonzero a b :
  a <> 0 -> b <> 0 ->
  int_true_divide a b =
    let negate := xorb (a <? 0) (b <? 0) in
    let e0 := Z.max (floor_log2_quot (Z.abs a) (Z.abs b) - (prec - 1)) emin in
    let '(m, e) :=
      normalize (round_half_even (scaled_num (Z.abs a) e0)
                                 (scaled_den (Z.abs b) e0)) e0 in
    if emax - prec <? e then Raise OverflowError
    else if m =? 0 then Ok (S754_zero negate)
    else Ok (S754_finite negate (Z.to_pos m) e).
Proof.
  intros Ha Hb. unfold int_true_divide.
  by rewrite (proj2 (Z.eqb_neq b 0)), (proj2 (Z.eqb_neq a 0)).
Qed.

Lemma scaled_signs x y e :
  scaled_den (Z.abs x) e = Z.abs (scaled_den x e)
  /\ scaled_num (Z.abs y) e = Z.abs (scaled_num y e).
Proof.
  unfold scaled_den, scaled_num.
  assert (0 < 2 ^ Z.max e 0) by (apply Z.pow_pos_nonneg; lia).
  assert (0 < 2 ^ Z.max (- e) 0) by (apply Z.pow_pos_nonneg; lia).
  rewrite !Z.abs_mul. lia.
Qed.

Lemma within_half_ulp_finite a b (m e : Z) :
  a <> 0 -> b <> 0 -> 0 < m ->
  (2 * m - 1) * scaled_den (Z.abs b) e <= 2 * scaled_num (Z.abs a) e ->
  2 * scaled_num (Z.abs a) e <= (2 * m + 1) * scaled_den (Z.abs b) e ->
  within_half_ulp
    (S754_finite (xorb (a <? 0) (b <? 0)) (Z.to_pos m) e) a b.
Proof.
  intros Ha Hb Hm Hlo Hhi. unfold within_half_ulp. cbn [mantissa exponent].
  assert (HX : 0 < 2 ^ Z.max e 0) by (apply Z.pow_pos_nonneg; lia).
  assert (HY : 0 < 2 ^ Z.max (- e) 0) by (apply Z.pow_pos_nonneg; lia).
  unfold scaled_den, scaled_num in *.
  set (X := 2 ^ Z.max e 0) in *. set (Y := 2 ^ Z.max (- e) 0) in *.
  assert (Hpos : Z.pos (Z.to_pos m) = m) by (apply Z2Pos.id; lia).
  assert (Hneg : Z.neg (Z.to_pos m) = - m) by (rewrite <- Pos2Z.opp_pos; lia).
  destruct (Z.ltb_spec a 0), (Z.ltb_spec b 0); cbn [xorb];
    rewrite ?Hpos, ?Hneg; nia.
Qed.

Lemma overflows_nonzero a b : b <> 0 -> overflows a b -> a <> 0.
Proof.
  intros Hb Ho ->. apply overflows_iff in Ho.
  assert (0 < 2 ^ 54 - 1) by done. assert (0 < 2 ^ 971) by done.
  change (Z.abs 0) with 0 in Ho. nia.
Qed.

Lemma int_true_divide_overflow a b :
  b <> 0 -> overflows a b -> int_true_divide a b = Raise OverflowError.
Proof.
  intros Hb Ho. pose proof (overflows_nonzero a b Hb Ho) as Ha.
  rewrite int_true_divide_nonzero by done. cbv zeta.
  destruct (rounded_quotient (Z.abs a) (Z.abs b)) as [Hover _]; [lia..|].
  apply overflows_iff in Ho. apply Hover in Ho.
  destruct (normalize _ _) as [m e]. cbn [snd] in Ho.
  by rewrite (proj2 (Z.ltb_lt _ _) Ho).
Qed.

Lemma int_true_divide_rounded a b :
  b <> 0 -> ~ overflows a b ->
  exists f, int_true_divide a b = Ok f
    /\ valid f /\ is_finite f = true /\ within_half_ulp f a b.
Proof.
  intros Hb Ho. destruct (Z.eq_dec a 0) as [->|Ha].
  - exists (S754_zero (xorb (0 <? 0) (b <? 0))).
    unfold int_true_divide. rewrite (proj2 (Z.eqb_neq b 0)) by done.
    split; [done|]. split; [done|]. split; [done|].
    unfold within_half_ulp. cbn [mantissa exponent].
    pose proof (scaled_den_pos (Z.abs b) emin ltac:(lia)).
    unfold scaled_den, scaled_num in *. lia.
  - rewrite int_true_divide_nonzero by done. cbv zeta.
    destruct (rounded_quotient (Z.abs a) (Z.abs b)) as [_ Hfit]; [lia..|].
    rewrite <- overflows_iff in Hfit.
    destruct (Hfit Ho) as (m & e & -> & He & Hm & Hnormal & Hlo & Hhi).
    rewrite (proj2 (Z.ltb_ge _ _)) by lia.
    destruct (Z.eqb_spec m 0) as [->|Hm0].
    + eexists. split; [done|]. split; [done|]. split; [done|].
      assert (e = emin) as ->.
      { destruct (Z_le_gt_dec e emin); [lia|].
        assert (0 < 2 ^ (prec - 1)) by done. lia. }
      unfold within_half_ulp. cbn [mantissa exponent].
      destruct (scaled_signs b a emin) as [HD HN]. rewrite HD.
      rewrite HN in Hhi.
      pose proof (scaled_den_pos (Z.abs b) emin ltac:(lia)).
      rewrite HD in *. unfold scaled_den at 1. lia.
    + eexists. split; [done|]. split; [apply valid_finite; lia|].
      split; [done|]. apply within_half_ulp_finite; [done..|lia|done|done].
Qed.

(** ** The tools *)

(** C4.  The tool registered under the name "add" is the function [add],
    and it returns [a + b] for all integers [a] and [b]. *)
Theorem add_returns_sum (a b : Z) :
  add a b = a + b
  /\ find_tool tools "add" = Ok add_tool
  /\ tool_invoke add_tool {[ "a" := VInt a; "b" := VInt b ]} = Ok (VInt (a + b)).
Proof. done. Qed.

(** C2 fails on the code: the tool registered under the name "multiply"
    returns [a + b].  On 12 and 5 it returns 17, not 60. *)
Theorem multiply_returns_sum :
  (forall a b : Z, multiply a b = a + b)
  /\ find_tool tools "multiply" = Ok multiply_tool
  /\ tool_invoke multiply_tool {[ "a" := VInt 12; "b" := VInt 5 ]} = Ok (VInt 17)
  /\ multiply 12 5 <> 12 * 5.
Proof. done. Qed.

(** The sum is the product only when [(a - 1) * (b - 1) = 1]. *)
Lemma multiply_is_product_iff (a b : Z) :
  multiply a b = a * b <-> (a = 0 /\ b = 0) \/ (a = 2 /\ b = 2).
Proof.
  unfold multiply. split; [|intros [[-> ->] | [-> ->]]; done].
  intros H. assert (Hp : (a - 1) * (b - 1) = 1) by lia.
  apply Z.eq_mul_1 in Hp as Ha. destruct Ha as [Ha | Ha]; nia.
Qed.

(** The quotients of the cases of the true division, as CPython computes
    them: 1/3, -7/2, 0/-5, the smallest subnormal, a tie that rounds to
    zero, the largest float, and the first quotient that overflows. *)
Example divide_one_third :
  divide 1 3 = Ok (S754_finite false 6004799503160661 (-54)).
Proof. vm_compute. reflexivity. Qed.

Example divide_negative :
  divide (-7) 2 = Ok (S754_finite true 7881299347898368 (-51)).
Proof. vm_compute. reflexivity. Qed.

Example divide_negative_zero : divide 0 (-5) = Ok (S754_zero true).
Proof. vm_compute. reflexivity. Qed.

Example divide_subnormal :
  divide 1 (2 ^ 1074) = Ok (S754_finite false 1 (-1074))
  /\ divide 1 (2 ^ 1075) = Ok (S754_zero false)
  /\ divide 3 (2 ^ 1075) = Ok (S754_finite false 2 (-1074)).
Proof. vm_compute. repeat split. Qed.

Example divide_largest :
  divide (2 ^ 1024 - 2 ^ 970 - 1) 1
    = Ok (S754_finite false 9007199254740991 971)
  /\ divide (2 ^ 1024 - 2 ^ 970) 1 = Raise OverflowError.
Proof. vm_compute. repeat split. Qed.

(** C3 as stated fails on the code: on [2^1024] and [1] the divisor is not
    zero and the tool returns no value, it raises OverflowError. *)
Lemma divide_overflow_counterexample :
  (1 : Z) <> 0
  /\ divide (2 ^ 1024) 1 = Raise OverflowError
  /\ ~ exists f, divide (2 ^ 1024) 1 = Ok f.
Proof.
  split; [done|].
  assert (H : divide (2 ^ 1024) 1 = Raise OverflowError)
    by (vm_compute; reflexivity).
  split; [exact H|]. intros [f Hf]. rewrite H in Hf. discriminate.
Qed.

(** C3, amended.  For all integers [a] and [b]: when [b] is zero the tool
    fails with ZeroDivisionError; when [b] is not zero and the quotient is
    below the overflow threshold [2^1024 - 2^970] in magnitude, the tool
    returns a finite, well-formed binary64 float within half a unit in the
    last place of [a / b]; and when [b] is not zero and the quotient reaches
    the threshold, the tool fails with OverflowError. *)
Theorem divide_returns_rounded_quotient (a b : Z) :
  (b = 0 -> divide a b = Raise ZeroDivisionError)
  /\ (b <> 0 -> ~ overflows a b ->
        exists f, divide a b = Ok f
          /\ valid f /\ is_finite f = true /\ within_half_ulp f a b)
  /\ (b <> 0 -> overflows a b -> divide a b = Raise OverflowError).
Proof.
  unfold divide. split; [|split].
  - intros ->. done.
  - apply int_true_divide_rounded.
  - apply int_true_divide_overflow.
Qed.

Lemma divide_returns_rounded_quotient_witness :
  divide 7 0 = Raise ZeroDivisionError
  /\ (exists f, divide 1 3 = Ok f
        /\ valid f /\ is_finite f = true /\ within_half_ulp f 1 3)
  /\ divide (2 ^ 1024) 1 = Raise OverflowError.
Proof.
  split; [|split].
  - apply (divide_returns_rounded_quotient 7 0). reflexivity.
  - apply (divide_returns_rounded_quotient 1 3).
    + discriminate.
    + intros H. vm_compute in H. apply H. reflexivity.
  - apply (divide_returns_rounded_quotient (2 ^ 1024) 1).
    + discriminate.
    + vm_compute. discriminate.
Defined.

(** The tool registered under the name "divide" is that function. *)
Lemma divide_tool_registered (a b : Z) :
  find_tool tools "divide" = Ok divide_tool
  /\ tool_invoke divide_tool {[ "a" := VInt a; "b" := VInt b ]}
     = VFloat <$> divide a b.
Proof. done. Qed.

(** ** The reducer *)

Lemma apply_update_messages (state update : AgentState) :
  messages_of (apply_update state update)
  = messages_of state ++ messages_of update.
Proof.
  unfold messages_of, apply_update. rewrite lookup_union_with.
  destruct (state !! "messages") as [old|], (update !! "messages") as [new|];
    cbn; by rewrite ?app_nil_r.
Qed.

Lemma apply_update_lookup (state update : AgentState) old new :
  state !! "messages" = Some old ->
  update !! "messages" = Some new ->
  apply_update state update !! "messages" = Some (old ++ new).
Proof.
  intros Ho Hn. unfold apply_update. rewrite lookup_union_with, Ho, Hn. done.
Qed.

Lemma apply_update_frame (state update : AgentState) key :
  update !! key = None ->
  apply_update state update !! key = state !! key.
Proof.
  intros Hn. unfold apply_update. rewrite lookup_union_with, Hn.
  by destruct (state !! key).
Qed.

Lemma apply_update_empty (input : AgentState) :
  messages_of (apply_update ∅ input) = messages_of input.
Proof. by rewrite apply_update_messages. Qed.

(** ** The assistant step *)

Lemma assistant_node_eq llm (state : AgentState) :
  assistant_node llm state =
    ([assistant_line],
     messages ← getitem state "messages";
     response ← llm messages;
     mret {[ "messages" := [response] ]}).
Proof.
  unfold assistant_node. rewrite io_bind_print, io_bind_lift.
  destruct (getitem state "messages") as [messages|e];
    cbn [mbind result_bind]; [|done].
  rewrite io_bind_lift. by destruct (llm messages).
Qed.

(** C7.  When the model client answers, the assistant step returns a partial
    state that writes the key "messages" only, with exactly one message, the
    response; merged into the state it appends that message to the sequence
    and leaves every other key as it was. *)
Theorem assistant_node_one_message
    (llm : list BaseMessage -> result BaseMessage)
    (state : AgentState) messages response :
  state !! "messages" = Some messages ->
  llm messages = Ok response ->
  exists update,
    assistant_node llm state = ([assistant_line], Ok update)
    /\ update = {[ "messages" := [response] ]}
    /\ length (messages_of update) = 1%nat
    /\ apply_update state update !! "messages" = Some (messages ++ [response])
    /\ forall key, key <> "messages" ->
         apply_update state update !! key = state !! key.
Proof.
  intros Hm Hr. exists {[ "messages" := [response] ]}.
  rewrite assistant_node_eq. unfold getitem. rewrite Hm. cbn. rewrite Hr.
  repeat split.
  - apply apply_update_lookup; [done | by rewrite lookup_singleton_eq].
  - intros key Hk. apply apply_update_frame. by rewrite lookup_singleton_ne.
Qed.

(** When the model client fails, the step fails with it and writes nothing. *)
Lemma assistant_node_raise llm (state : AgentState) messages e :
  state !! "messages" = Some messages ->
  llm messages = Raise e ->
  assistant_node llm state = ([assistant_line], Raise e).
Proof.
  intros Hm Hr. rewrite assistant_node_eq. unfold getitem.
  rewrite Hm. cbn. by rewrite Hr.
Qed.

(** C7, at the question of the worked example. *)
Lemma assistant_node_one_message_witness :
  exists update,
    assistant_node final_llm {[ "messages" := inputs ]} = ([assistant_line], Ok update)
    /\ update = {[ "messages" := [AIMessage "75" None] ]}
    /\ length (messages_of update) = 1%nat
    /\ apply_update {[ "messages" := inputs ]} update !! "messages"
       = Some (inputs ++ [AIMessage "75" None])
    /\ forall key, key <> "messages" ->
         apply_update {[ "messages" := inputs ]} update !! key
         = ({[ "messages" := inputs ]} : AgentState) !! key.
Proof.
  apply (assistant_node_one_message final_llm {[ "messages" := inputs ]} inputs);
    reflexivity.
Defined.

(** ** Inversion and composition of steps *)

Lemma io_bind_inv {A B} (m : io A) (f : A -> io B) out b :
  m ≫= f = (out, Ok b) ->
  exists out1 a out2, m = (out1, Ok a) /\ f a = (out2, Ok b) /\ out = out1 ++ out2.
Proof.
  destruct m as [out1 [a|e]]; [|done].
  rewrite io_bind_ok. destruct (f a) as [out2 r] eqn:E. cbn.
  intros [= <- ->]. by exists out1, a, out2.
Qed.

Lemma result_bind_inv {A B} (m : result A) (f : A -> result B) b :
  m ≫= f = Ok b -> exists a, m = Ok a /\ f a = Ok b.
Proof. destruct m as [a|e]; [|done]. intros H. by exists a. Qed.

Lemma run_node_inv g name (state : AgentState) out update state' next :
  run_node g name state = (out, Ok (update, state', next)) ->
  state' = apply_update state update
  /\ exists action out1 out2,
       nodes g !! name = Some action
       /\ action state = (out1, Ok update)
       /\ route g name state' = (out2, Ok next).
Proof.
  unfold run_node. rewrite io_bind_lift. unfold getitem.
  destruct (nodes g !! name) as [action|]; [|done].
  intros (out1 & update' & out2 & Ha & Hr & _)%io_bind_inv.
  apply io_bind_inv in Hr as (out3 & next' & out4 & Hn & Hret & _).
  unfold mret, io_ret in Hret. simplify_eq. split; [done|].
  by exists action, out1, out3.
Qed.

Lemma run_step g fuel name (state : AgentState) out1 update state' next out2 rest :
  run_node g name state = (out1, Ok (update, state', next)) ->
  run g fuel next state' = (out2, Ok rest) ->
  run g (S fuel) (Named name) state
  = (out1 ++ out2,
     Ok {| events := (name, update) :: events rest;
           position := position rest;
           current := current rest |}).
Proof.
  intros Hn Hr. cbn [run]. rewrite Hn, io_bind_ok. cbn.
  rewrite Hr, io_bind_ok. cbn. by rewrite app_nil_r.
Qed.

(** The edges and nodes declared by the builder. *)
Lemma graph_nodes_tools llm : nodes (graph llm) !! "tools" = Some tool_node.
Proof. reflexivity. Qed.

Lemma graph_nodes_assistant llm :
  nodes (graph llm) !! "assistant" = Some (assistant_node llm).
Proof. reflexivity. Qed.

Lemma graph_route_tools llm (state : AgentState) :
  route (graph llm) "tools" state = ([], Ok (Named "assistant")).
Proof. reflexivity. Qed.

Lemma graph_route_assistant llm (state : AgentState) :
  route (graph llm) "assistant" state = tools_condition state.
Proof. reflexivity. Qed.

Lemma graph_entry llm : outgoing (graph llm) START = Named "assistant".
Proof. reflexivity. Qed.

Lemma run_node_tools llm (state : AgentState) out update :
  tool_node state = (out, Ok update) ->
  run_node (graph llm) "tools" state
  = (out, Ok (update, apply_update state update, Named "assistant")).
Proof.
  intros Ht. unfold run_node, getitem. rewrite graph_nodes_tools, io_bind_lift.
  rewrite Ht, io_bind_ok, graph_route_tools. cbn. by rewrite app_nil_r.
Qed.

Lemma run_node_assistant llm (state : AgentState) out1 update out2 next :
  assistant_node llm state = (out1, Ok update) ->
  tools_condition (apply_update state update) = (out2, Ok next) ->
  run_node (graph llm) "assistant" state
  = (out1 ++ out2, Ok (update, apply_update state update, next)).
Proof.
  intros Ha Hc. unfold run_node, getitem.
  rewrite graph_nodes_assistant, io_bind_lift.
  rewrite Ha, io_bind_ok, graph_route_assistant, Hc. cbn. by rewrite app_nil_r.
Qed.

(** ** The conversation state *)

Lemma run_appends g fuel : forall node (state : AgentState) out progress,
  run g fuel node state = (out, Ok progress) ->
  messages_of (current progress) = messages_of state ++ concat (appended progress).
Proof.
  induction fuel as [|fuel IH]; intros node state out progress.
  - intros [= _ <-]. unfold appended. cbn. by rewrite app_nil_r.
  - destruct node as [|name|]; cbn [run].
    + apply IH.
    + intros (out1 & [[update state'] next] & out2 & Hn & Hr & _)%io_bind_inv.
      apply io_bind_inv in Hr as (out3 & rest & out4 & Hrest & Hret & _).
      unfold mret, io_ret in Hret. simplify_eq. unfold appended. cbn.
      apply run_node_inv in Hn as [-> _].
      apply IH in Hrest. rewrite Hrest, apply_update_messages.
      by rewrite <- app_assoc.
    + intros [= _ <-]. unfold appended. cbn. by rewrite app_nil_r.
Qed.

(** C5.  Every step the driver loop executes leaves the message sequence as
    it was and concatenates the messages of the step's update at its end;
    so when the loop has stopped, or has run for any number of steps, the
    sequence is the input messages followed by the messages appended by each
    executed step, in order, and its length is the sum of their numbers. *)
Theorem conversation_grows_by_append (llm : list BaseMessage -> result BaseMessage) :
  (forall name (state : AgentState) out update state' next,
     run_node (graph llm) name state = (out, Ok (update, state', next)) ->
     messages_of state' = messages_of state ++ messages_of update)
  /\ (forall fuel (input : AgentState) out progress,
     stream (graph llm) fuel input = (out, Ok progress) ->
     messages_of (current progress)
       = concat (messages_of input :: appended progress)
     /\ length (messages_of (current progress))
       = sum_list (length <$> (messages_of input :: appended progress))).
Proof.
  split.
  - intros name state out update state' next [-> _]%run_node_inv.
    apply apply_update_messages.
  - intros fuel input out progress Hs.
    assert (Hc : messages_of (current progress)
                 = concat (messages_of input :: appended progress)).
    { apply run_appends in Hs. by rewrite Hs, apply_update_empty. }
    split; [done|]. rewrite Hc. apply length_concat.
Qed.

Lemma conversation_grows_by_append_witness :
  exists out progress,
    stream (graph insistent_llm) 4 {[ "messages" := inputs ]} = (out, Ok progress)
    /\ messages_of (current progress)
       = concat (messages_of {[ "messages" := inputs ]} :: appended progress)
    /\ length (messages_of (current progress))
       = sum_list (length <$>
           (messages_of {[ "messages" := inputs ]} :: appended progress)).
Proof.
  eexists _, _. split; [reflexivity|].
  eapply (proj2 (conversation_grows_by_append insistent_llm) 4%nat).
  reflexivity.
Defined.

(** ** The tool-execution step *)

Lemma ToolNode_eq registry (state : AgentState) :
  ToolNode registry state =
    ([],
     messages ← getitem state "messages";
     last_message ← last_item messages;
     calls ← tool_calls last_message;
     results ← run_tool_calls registry (default [] calls);
     mret {[ "messages" := results ]}).
Proof.
  unfold ToolNode. rewrite io_bind_lift.
  destruct (getitem state "messages") as [messages|e];
    cbn [mbind result_bind]; [|done].
  rewrite io_bind_lift.
  destruct (last_item messages) as [last_message|e];
    cbn [mbind result_bind]; [|done].
  rewrite io_bind_lift.
  destruct (tool_calls last_message) as [calls|e];
    cbn [mbind result_bind]; [|done].
  rewrite io_bind_lift.
  by destruct (run_tool_calls registry (default [] calls)).
Qed.

Lemma ToolNode_last registry (state : AgentState) before content calls :
  state !! "messages" = Some (before ++ [AIMessage content calls]) ->
  ToolNode registry state =
    ([],
     results ← run_tool_calls registry (default [] calls);
     mret {[ "messages" := results ]}).
Proof.
  intros Hm. rewrite ToolNode_eq. unfold getitem. rewrite Hm.
  cbn [mbind result_bind]. by rewrite last_item_snoc.
Qed.

Lemma run_tool_call_answers registry call message :
  run_tool_call registry call = Ok message <-> answers registry call message.
Proof.
  unfold run_tool_call, answers. split.
  - intros (t & Ht & (value & Hv & [= <-])%result_bind_inv)%result_bind_inv.
    by exists t, value.
  - intros (t & value & -> & Hv & ->). cbn. by rewrite Hv.
Qed.

Lemma run_tool_calls_answers registry calls : forall results,
  run_tool_calls registry calls = Ok results <->
  Forall2 (answers registry) calls results.
Proof.
  induction calls as [|call calls IH]; intros results; cbn [run_tool_calls].
  - split; [intros [= <-]; constructor | by intros ->%Forall2_nil_inv_l].
  - split.
    + intros (message & Hm & (rest & Hr & [= <-])%result_bind_inv)%result_bind_inv.
      constructor; [by apply run_tool_call_answers | by apply IH].
    + intros (message & rest & Hm & Hr & ->)%Forall2_cons_inv_l.
      apply run_tool_call_answers in Hm. apply IH in Hr.
      by rewrite Hm, Hr.
Qed.

Lemma run_tool_calls_total registry calls :
  Forall (fun call => exists message, run_tool_call registry call = Ok message) calls ->
  exists results, run_tool_calls registry calls = Ok results.
Proof.
  induction 1 as [|call calls [message Hm] _ [results Hr]]; cbn [run_tool_calls].
  - by exists [].
  - exists (message :: results). by rewrite Hm, Hr.
Qed.

(** C6.  On a state whose latest message is an Assistant message, the
    tool-execution step, when it completes, returns one ToolResult message
    per request of that message, in the order of the requests, each with the
    value its tool returned and the identifier of its request; the driver
    loop appends them all to the conversation and only then goes to the
    assistant step.  The step completes whenever each request succeeds. *)
Theorem tool_node_pairs_results (state : AgentState) before content calls :
  state !! "messages" = Some (before ++ [AIMessage content calls]) ->
  (Forall (fun call => exists message, run_tool_call tools call = Ok message)
          (default [] calls) ->
     exists update, tool_node state = ([], Ok update))
  /\ forall out update, tool_node state = (out, Ok update) ->
     exists results,
       update = {[ "messages" := results ]}
       /\ Forall2 (answers tools) (default [] calls) results
       /\ length results = length (default [] calls)
       /\ forall llm,
            run_node (graph llm) "tools" state
              = (out, Ok (update, apply_update state update, Named "assistant"))
            /\ apply_update state update !! "messages"
               = Some ((before ++ [AIMessage content calls]) ++ results).
Proof.
  intros Hm. unfold tool_node. rewrite (ToolNode_last _ _ _ _ _ Hm). split.
  - intros [results Hr]%run_tool_calls_total. rewrite Hr. by eexists.
  - intros out update Ht.
    destruct (run_tool_calls tools (default [] calls)) as [results|e] eqn:Hr;
      [|done].
    cbn in Ht. unfold mret, result_ret in Ht. simplify_eq. exists results.
    apply run_tool_calls_answers in Hr as Hall.
    split; [done|]. split; [done|].
    split; [symmetry; by eapply Forall2_length|].
    intros llm. split.
    + apply run_node_tools. unfold tool_node.
      by rewrite (ToolNode_last _ _ _ _ _ Hm), Hr.
    + apply apply_update_lookup; [done | by rewrite lookup_singleton_eq].
Qed.

Lemma tool_node_pairs_results_witness :
  (exists update,
     tool_node {[ "messages" := inputs ++ [AIMessage "" (Some [sample_call])] ]}
     = ([], Ok update))
  /\ forall out update,
     tool_node {[ "messages" := inputs ++ [AIMessage "" (Some [sample_call])] ]}
     = (out, Ok update) ->
     exists results,
       update = {[ "messages" := results ]}
       /\ Forall2 (answers tools) [sample_call] results
       /\ length results = 1%nat.
Proof.
  destruct (tool_node_pairs_results
              {[ "messages" := inputs ++ [AIMessage "" (Some [sample_call])] ]}
              inputs "" (Some [sample_call])) as [Htotal Hpairs];
    [reflexivity|].
  split.
  - apply Htotal. repeat constructor. by eexists.
  - intros out update Ht.
    destruct (Hpairs out update Ht) as (results & Hu & Ha & Hl & _).
    by exists results.
Defined.

(** A failing request is fatal to the step: nothing is returned. *)
Lemma tool_node_fatal (state : AgentState) before content calls e :
  state !! "messages" = Some (before ++ [AIMessage content calls]) ->
  run_tool_calls tools (default [] calls) = Raise e ->
  tool_node state = ([], Raise e).
Proof.
  intros Hm Hr. unfold tool_node. by rewrite (ToolNode_last _ _ _ _ _ Hm), Hr.
Qed.

(** ** The driver loop *)

Lemma insistent_loop fuel :
  (forall (state : AgentState) messages,
     state !! "messages" = Some messages ->
     exists out progress,
       run (graph insistent_llm) fuel (Named "assistant") state = (out, Ok progress)
       /\ position progress <> END
       /\ map fst (events progress) = loop_names fuel "assistant" "tools")
  /\ (forall (state : AgentState) before,
     state !! "messages" = Some (before ++ [AIMessage "" (Some [sample_call])]) ->
     exists out progress,
       run (graph insistent_llm) fuel (Named "tools") state = (out, Ok progress)
       /\ position progress <> END
       /\ map fst (events progress) = loop_names fuel "tools" "assistant").
Proof.
  induction fuel as [|fuel [IHa IHt]].
  - split; intros state ? _; by eexists _, _.
  - split.
    + intros state messages Hm.
      set (update := {[ "messages" := [AIMessage "" (Some [sample_call])] ]} : AgentState).
      assert (Hs : apply_update state update !! "messages"
                   = Some (messages ++ [AIMessage "" (Some [sample_call])])).
      { by apply apply_update_lookup. }
      destruct (IHt _ _ Hs) as (out & rest & Hrest & Hpos & Hnames).
      eexists _, _. split; [|split].
      * eapply run_step; [|exact Hrest].
        eapply run_node_assistant.
        -- rewrite assistant_node_eq. unfold getitem. by rewrite Hm.
        -- by rewrite (tools_condition_last _ _ _ Hs).
      * done.
      * cbn. by rewrite Hnames.
    + intros state before Hm.
      set (update := {[ "messages" := [ToolMessage (VInt 2) "call_1"] ]} : AgentState).
      assert (Hs : apply_update state update !! "messages"
                   = Some ((before ++ [AIMessage "" (Some [sample_call])])
                             ++ [ToolMessage (VInt 2) "call_1"])).
      { by apply apply_update_lookup. }
      destruct (IHa _ _ Hs) as (out & rest & Hrest & Hpos & Hnames).
      eexists _, _. split; [|split].
      * eapply run_step; [|exact Hrest].
        eapply run_node_tools.
        unfold tool_node. by rewrite (ToolNode_last _ _ _ _ _ Hm).
      * done.
      * cbn. by rewrite Hnames.
Qed.

(** C8.  The graph has no bound on the number of steps: with a model client
    whose every response carries a non-empty list of requests, the loop,
    however many steps it is given, executes them all, alternating the
    assistant step and the tool-execution step, and is never at END. *)
Theorem driver_loop_unbounded :
  exists llm : list BaseMessage -> result BaseMessage,
    (forall messages, exists content request rest,
       llm messages = Ok (AIMessage content (Some (request :: rest))))
    /\ forall (steps : nat) (conversation : list BaseMessage),
       exists out progress,
         stream (graph llm) (S steps) {[ "messages" := conversation ]}
           = (out, Ok progress)
         /\ position progress <> END
         /\ map fst (events progress) = loop_names steps "assistant" "tools"
         /\ length (events progress) = steps.
Proof.
  exists insistent_llm. split.
  - intros messages. by exists "", sample_call, [].
  - intros steps conversation.
    destruct (proj1 (insistent_loop steps)
                (apply_update ∅ {[ "messages" := conversation ]}) conversation)
      as (out & progress & Hrun & Hpos & Hnames); [done|].
    exists out, progress. unfold stream. cbn [run]. rewrite graph_entry.
    repeat split; [done..|].
    rewrite <- (length_map fst), Hnames.
    clear. generalize "assistant" "tools".
    induction steps as [|steps IH]; intros name other; cbn; [done|].
    by rewrite IH.
Qed.

(** With a model client that requests no tool, the loop is over after one
    assistant step. *)
Lemma driver_loop_terminates_at_once (fuel : nat) :
  exists out progress,
    stream (graph final_llm) (S (S fuel)) {[ "messages" := inputs ]}
      = (out, Ok progress)
    /\ position progress = END
    /\ map fst (events progress) = ["assistant"].
Proof.
  eexists _, _. unfold stream. cbn [run]. rewrite graph_entry.
  split; [|split].
  - erewrite run_node_assistant; [| reflexivity | reflexivity].
    rewrite io_bind_ok. destruct fuel; cbn; reflexivity.
  - destruct fuel; reflexivity.
  - destruct fuel; reflexivity.
Qed.

(** * Further properties of the nodes and of the loop *)

(** ** What a returned route says about the state *)

Lemma last_item_ok {A} (l : list A) (x : A) :
  last_item l = Ok x -> exists before, l = before ++ [x].
Proof.
  unfold last_item. destruct (last l) as [y|] eqn:E; [|done].
  intros [= ->]. by apply last_Some.
Qed.

Lemma getitem_ok {V} (d : gmap string V) key v :
  getitem d key = Ok v <-> d !! key = Some v.
Proof. unfold getitem. destruct (d !! key); naive_solver. Qed.

(** X1.  The router returns a route only on a state whose latest message is
    an Assistant message: the route to "tools" only when that message
    carries a non-empty list of requests, END only when the list is empty or
    absent; it returns no other route, and it has printed its one line. *)
Theorem tools_condition_inversion (state : AgentState) out next :
  tools_condition state = (out, Ok next) ->
  out = [condition_line]
  /\ exists before content calls,
       state !! "messages" = Some (before ++ [AIMessage content calls])
       /\ ((next = Named "tools" /\ exists request rest, calls = Some (request :: rest))
           \/ (next = END /\ (calls = Some [] \/ calls = None))).
Proof.
  rewrite tools_condition_eq. intros [= <- H]. split; [done|].
  apply result_bind_inv in H as (messages & Hm%getitem_ok & H).
  apply result_bind_inv in H as (last_message & [before ->]%last_item_ok & H).
  apply result_bind_inv in H as (calls & Hc & H).
  destruct last_message as [| |content calls'|]; try done.
  injection Hc as ->. exists before, content, calls. split; [done|].
  unfold mret, result_ret in H.
  destruct calls as [[|request rest]|]; cbn in H; injection H as <-.
  - right. split; [done|]. by left.
  - left. split; [done|]. by exists request, rest.
  - right. split; [done|]. by right.
Qed.

Lemma tools_condition_inversion_witness :
  [condition_line] = [condition_line]
  /\ exists before content calls,
       ({[ "messages" := inputs ++ [AIMessage "" (Some [sample_call])] ]}
          : AgentState) !! "messages"
       = Some (before ++ [AIMessage content calls])
       /\ ((Named "tools" = Named "tools"
            /\ exists request rest, calls = Some (request :: rest))
           \/ (Named "tools" = END /\ (calls = Some [] \/ calls = None))).
Proof.
  apply (tools_condition_inversion
           {[ "messages" := inputs ++ [AIMessage "" (Some [sample_call])] ]}).
  reflexivity.
Defined.

(** X2.  The router always prints its one line, and it fails in exactly
    three situations: with KeyError when the state has no "messages" key,
    with IndexError when the message sequence is empty, and with
    AttributeError when the latest message is not an Assistant message. *)
Theorem tools_condition_failures (state : AgentState) :
  stdout (tools_condition state) = [condition_line]
  /\ forall e,
     outcome (tools_condition state) = Raise e <->
       (e = KeyError /\ state !! "messages" = None)
       \/ (e = IndexError /\ state !! "messages" = Some [])
       \/ (e = AttributeError
           /\ exists before last_message,
                state !! "messages" = Some (before ++ [last_message])
                /\ forall content calls, last_message <> AIMessage content calls).
Proof.
  rewrite tools_condition_eq. split; [done|]. intros e.
  unfold outcome, getitem. cbn [snd].
  destruct (state !! "messages") as [messages|] eqn:Hm; cbn [mbind result_bind].
  - destruct (last_item messages) as [last_message|e'] eqn:Hl;
      cbn [mbind result_bind].
    + apply last_item_ok in Hl as [before ->].
      assert (Hcase : (exists c calls, last_message = AIMessage c calls)
                      \/ tool_calls last_message = Raise AttributeError).
      { destruct last_message; [by right|by right|left; by eexists _, _|by right]. }
      destruct Hcase as [(c & calls & ->)|Hattr].
      * cbn. split; [by destruct (truthy calls)|].
        intros [[_ [=]]|[[_ [= H]]|(_ & b & m & [= H] & Hne)]].
        -- by destruct before.
        -- apply app_inj_tail in H as [_ <-]. by destruct (Hne c calls).
      * rewrite Hattr. cbn. split.
        -- intros [= <-]. right; right. split; [done|].
           exists before, last_message. split; [done|].
           intros c calls ->. discriminate.
        -- intros [[_ [=]]|[[_ [= H]]|(-> & _)]]; [|done].
           by destruct before.
    + apply last_item_raise in Hl as Hnil. subst messages.
      rewrite last_item_nil in Hl. injection Hl as <-. split.
      * intros [= <-]. right. by left.
      * intros [[_ [=]]|[[-> _]|(_ & b & m & [= H] & _)]]; [done|].
        by destruct b.
  - split.
    + intros [= <-]. by left.
    + intros [[-> _]|[[_ [=]]|(_ & b & m & [=] & _)]]. done.
Qed.

(** ** What the assistant step returns *)

(** X3.  The assistant step prints its line first, then passes the whole
    message sequence to the model client.  It returns an update exactly when
    the state has messages and the client answers, and the update is then
    the one-message list of that answer under "messages"; it fails with
    KeyError on a state without messages, whatever the client is, and
    otherwise only with the client's own error. *)
Theorem assistant_node_outcome
    (llm : list BaseMessage -> result BaseMessage) (state : AgentState) :
  stdout (assistant_node llm state) = [assistant_line]
  /\ (forall update,
        outcome (assistant_node llm state) = Ok update <->
        exists messages response,
          state !! "messages" = Some messages
          /\ llm messages = Ok response
          /\ update = {[ "messages" := [response] ]})
  /\ (forall e,
        outcome (assistant_node llm state) = Raise e <->
        (e = KeyError /\ state !! "messages" = None)
        \/ exists messages,
             state !! "messages" = Some messages /\ llm messages = Raise e).
Proof.
  rewrite assistant_node_eq. split; [done|].
  unfold outcome, getitem. cbn [snd].
  destruct (state !! "messages") as [messages|] eqn:Hm; cbn [mbind result_bind].
  - destruct (llm messages) as [response|e'] eqn:Hr; cbn [mbind result_bind].
    + split.
      * intros update. unfold mret, result_ret. split.
        -- intros [= <-]. by exists messages, response.
        -- intros (ms & r & [= <-] & Hr' & ->). rewrite Hr in Hr'.
           by injection Hr' as <-.
      * intros e. split; [done|].
        intros [[_ [=]]|(ms & [= <-] & Hr')]. by rewrite Hr in Hr'.
    + split.
      * intros update. split; [done|].
        intros (ms & r & [= <-] & Hr' & _). by rewrite Hr in Hr'.
      * intros e. split.
        -- intros [= <-]. right. by exists messages.
        -- intros [[_ [=]]|(ms & [= <-] & Hr')]. rewrite Hr in Hr'.
           by injection Hr' as ->.
  - split.
    + intros update. split; [done|]. by intros (ms & r & [=] & _).
    + intros e. split.
      * intros [= <-]. by left.
      * intros [[-> _]|(ms & [=] & _)]. done.
Qed.

(** ** The run, step by step *)

Lemma run_node_inv_out g name (state : AgentState) out update state' next :
  run_node g name state = (out, Ok (update, state', next)) ->
  state' = apply_update state update
  /\ exists action out1 out2,
       nodes g !! name = Some action
       /\ action state = (out1, Ok update)
       /\ route g name state' = (out2, Ok next)
       /\ out = out1 ++ out2.
Proof.
  unfold run_node. rewrite io_bind_lift. unfold getitem.
  destruct (nodes g !! name) as [action|]; [|done].
  intros (out1 & update' & out2 & Ha & Hr & ->)%io_bind_inv.
  apply io_bind_inv in Hr as (out3 & next' & out4 & Hn & Hret & ->).
  unfold mret, io_ret in Hret. simplify_eq. split; [done|].
  exists action, out1, out3. by rewrite app_nil_r.
Qed.

Lemma router_ok_inv (state : AgentState) out next :
  tools_condition state = (out, Ok next) ->
  out = [condition_line]
  /\ exists before content calls,
       state !! "messages" = Some (before ++ [AIMessage content calls])
       /\ next = if truthy calls then Named "tools" else END.
Proof.
  rewrite tools_condition_eq. intros [= <- H]. split; [done|].
  apply result_bind_inv in H as (messages & Hm%getitem_ok & H).
  apply result_bind_inv in H as (last_message & [before ->]%last_item_ok & H).
  apply result_bind_inv in H as (calls & Hc & H).
  destruct last_message as [| |content calls'|]; try done.
  injection Hc as ->. injection H as <-. by exists before, content, calls.
Qed.

Lemma assistant_ok_inv llm (state : AgentState) out update :
  assistant_node llm state = (out, Ok update) ->
  out = [assistant_line]
  /\ exists messages response,
       state !! "messages" = Some messages
       /\ llm messages = Ok response
       /\ update = {[ "messages" := [response] ]}.
Proof.
  rewrite assistant_node_eq. intros [= <- H]. split; [done|].
  apply result_bind_inv in H as (messages & Hm%getitem_ok & H).
  apply result_bind_inv in H as (response & Hr & [= <-]).
  by exists messages, response.
Qed.

Lemma tool_node_inv (state : AgentState) out update :
  tool_node state = (out, Ok update) ->
  out = []
  /\ exists before content calls results,
       state !! "messages" = Some (before ++ [AIMessage content calls])
       /\ run_tool_calls tools (default [] calls) = Ok results
       /\ update = {[ "messages" := results ]}.
Proof.
  unfold tool_node. rewrite ToolNode_eq. intros [= <- H]. split; [done|].
  apply result_bind_inv in H as (messages & Hm%getitem_ok & H).
  apply result_bind_inv in H as (last_message & [before ->]%last_item_ok & H).
  apply result_bind_inv in H as (calls & Hc & H).
  destruct last_message as [| |content calls'|]; try done.
  injection Hc as ->.
  apply result_bind_inv in H as (results & Hr & [= <-]).
  by exists before, content, calls, results.
Qed.

Lemma graph_nodes_dom llm name action :
  nodes (graph llm) !! name = Some action ->
  (name = "assistant" /\ action = assistant_node llm)
  \/ (name = "tools" /\ action = tool_node).
Proof.
  unfold graph, builder, add_edge, add_conditional_edges, add_node, new_graph.
  cbn [nodes].
  intros [[<- <-]|[_ [[<- <-]|[_ H]]%lookup_insert_Some]]%lookup_insert_Some;
    [by right|by left|done].
Qed.

Lemma run_loop llm fuel : forall node (state : AgentState) out progress,
  run (graph llm) fuel node state = (out, Ok progress) ->
  loop llm node state out (events progress) (position progress) (current progress).
Proof.
  induction fuel as [|fuel IH]; intros node state out progress.
  - intros [= <- <-]. constructor.
  - destruct node as [|name|]; cbn [run].
    + rewrite graph_entry. intros H%IH. by constructor.
    + intros (out1 & [[update state'] next] & out2 & Hn & Hr & ->)%io_bind_inv.
      apply io_bind_inv in Hr as (out3 & rest & out4 & Hrest%IH & Hret & ->).
      unfold mret, io_ret in Hret. simplify_eq. cbn [events position current].
      rewrite app_nil_r.
      apply run_node_inv_out in Hn
        as (-> & action & o1 & o2 & Hact & Hrun & Hroute & ->).
      apply graph_nodes_dom in Hact as [[-> ->]|[-> ->]].
      * rewrite graph_route_assistant in Hroute.
        apply assistant_ok_inv in Hrun as (-> & messages & response & Hm & Hl & ->).
        apply router_ok_inv in Hroute as Hinv.
        destruct Hinv as [-> _]. by eapply loop_assistant.
      * rewrite graph_route_tools in Hroute. simplify_eq.
        apply tool_node_inv in Hrun
          as (-> & before & content & calls & results & Hm & Hr & ->).
        by eapply loop_tools.
    + intros [= <- <-]. constructor.
Qed.

Lemma loop_from_end llm (state : AgentState) out evs pos final :
  loop llm END state out evs pos final ->
  out = [] /\ evs = [] /\ pos = END /\ final = state.
Proof. by inversion 1. Qed.

Lemma loop_lines llm node (state : AgentState) out evs pos final :
  loop llm node state out evs pos final ->
  out = concat (map (fun event => lines_of event.1) evs).
Proof. induction 1 as [| |? ? ? ? ? ? ? ? ? ? ? ? ->|]; by cbn. Qed.

Lemma loop_names_of llm node (state : AgentState) out evs pos final :
  loop llm node state out evs pos final ->
  (node = Named "tools" ->
     map fst evs = loop_names (length evs) "tools" "assistant")
  /\ (node = Named "assistant" \/ node = START ->
     map fst evs = loop_names (length evs) "assistant" "tools").
Proof.
  induction 1 as [node state|state out evs pos final H IH
                  |state messages response next out evs pos final Hm Hl Hc H IH
                  |state before content calls results out evs pos final Hm Hr H IH].
  - done.
  - split; [done|]. intros _. apply IH. by left.
  - split; [done|]. intros _. cbn. f_equal.
    apply router_ok_inv in Hc as (_ & ? & ? & calls' & _ & ->).
    destruct (truthy calls'); [by apply IH|].
    by apply loop_from_end in H as (_ & -> & _).
  - split; [|by intros [|]]. intros _. cbn. f_equal. apply IH. by left.
Qed.

Lemma loop_ends llm node (state : AgentState) out evs pos final :
  loop llm node state out evs pos final ->
  pos = END ->
  (node = END /\ evs = [] /\ final = state)
  \/ exists earlier content calls before,
       evs = earlier ++ [("assistant", {[ "messages" := [AIMessage content calls] ]})]
       /\ truthy calls = false
       /\ final !! "messages" = Some (before ++ [AIMessage content calls]).
Proof.
  induction 1 as [node state|state out evs pos final H IH
                  |state messages response next out evs pos final Hm Hl Hc H IH
                  |state before content calls results out evs pos final Hm Hr H IH];
    intros Hpos.
  - left. by subst.
  - destruct (IH Hpos) as [[[=] _]|IH']. by right.
  - right. destruct (IH Hpos) as [(-> & -> & ->)|(earlier & c & cs & b & -> & Hf & Hfin)].
    + apply router_ok_inv in Hc as (_ & b & c & cs & Hs & Hnext).
      rewrite (apply_update_lookup state _ messages [response]) in Hs;
        [|done|by rewrite lookup_singleton_eq].
      injection Hs as Hs. apply app_inj_tail in Hs as [<- ->].
      exists [], c, cs, messages. split; [done|].
      split; [by destruct (truthy cs)|].
      apply apply_update_lookup; [done|by rewrite lookup_singleton_eq].
    + by exists (("assistant", {[ "messages" := [response] ]}) :: earlier), c, cs, b.
  - right. destruct (IH Hpos) as [[[=] _]|(earlier & c & cs & b & -> & Hf & Hfin)].
    by exists (("tools", {[ "messages" := results ]}) :: earlier), c, cs, b.
Qed.

Lemma loop_chained llm node (state : AgentState) out evs pos final :
  loop llm node state out evs pos final ->
  chained (follows tools) evs.
Proof.
  induction 1 as [node state|state out evs pos final H IH
                  |state messages response next out evs pos final Hm Hl Hc H IH
                  |state before content calls results out evs pos final Hm Hr H IH];
    [done|done| |].
  - destruct evs as [|second evs]; [done|]. split; [|done].
    apply router_ok_inv in Hc as (_ & b & c & cs & Hs & ->).
    rewrite (apply_update_lookup state _ messages [response]) in Hs;
      [|done|by rewrite lookup_singleton_eq].
    injection Hs as Hs. apply app_inj_tail in Hs as [<- ->].
    destruct cs as [[|request rest]|]; cbn [truthy] in H;
      [by inversion H| |by inversion H].
    inversion H as [| | |? before' content' calls' results ? ? ? ? Hm' Hr' H'];
      subst.
    rewrite (apply_update_lookup state _ messages [AIMessage c (Some (request :: rest))])
      in Hm'; [|done|by rewrite lookup_singleton_eq].
    injection Hm' as Hm'. apply app_inj_tail in Hm' as [_ [= <- <-]].
    left. split; [done|]. split; [done|].
    exists c, (request :: rest), results. split; [done|]. split; [done|].
    split; [done|]. by apply run_tool_calls_answers.
  - destruct evs as [|second evs]; [done|]. split; [|done].
    right. split; [done|]. by inversion H.
Qed.

(** ** What every run of the graph looks like *)

(** X4.  A run is over only after an assistant step whose response carries
    no request: when [stream] stands at END, the last event is an assistant
    step, its update is one Assistant message with an empty or absent request
    list, and that message is the latest of the final conversation. *)
Theorem run_ends_on_final_answer
    (llm : list BaseMessage -> result BaseMessage)
    fuel (input : AgentState) out progress :
  stream (graph llm) fuel input = (out, Ok progress) ->
  position progress = END ->
  exists earlier content calls before,
    events progress
      = earlier ++ [("assistant", {[ "messages" := [AIMessage content calls] ]})]
    /\ (calls = Some [] \/ calls = None)
    /\ current progress !! "messages"
       = Some (before ++ [AIMessage content calls]).
Proof.
  intros Hs%run_loop Hpos.
  destruct (loop_ends _ _ _ _ _ _ _ Hs Hpos)
    as [[[=] _]|(earlier & content & calls & before & He & Hf & Hm)].
  exists earlier, content, calls, before. split; [done|]. split; [|done].
  destruct calls as [[|]|]; [by left|done|by right].
Qed.

Lemma run_ends_on_final_answer_witness :
  exists earlier content calls before,
    events (progress_of final_run)
      = earlier ++ [("assistant", {[ "messages" := [AIMessage content calls] ]})]
    /\ (calls = Some [] \/ calls = None)
    /\ current (progress_of final_run) !! "messages"
       = Some (before ++ [AIMessage content calls]).
Proof.
  apply (run_ends_on_final_answer final_llm 5%nat {[ "messages" := inputs ]}
           (stdout final_run) (progress_of final_run));
    vm_compute; reflexivity.
Defined.

(** X5.  Whatever the model client answers, the steps of a run alternate,
    starting with the assistant step: assistant, tools, assistant, ... *)
Theorem run_alternates
    (llm : list BaseMessage -> result BaseMessage)
    fuel (input : AgentState) out progress :
  stream (graph llm) fuel input = (out, Ok progress) ->
  map fst (events progress)
    = loop_names (length (events progress)) "assistant" "tools".
Proof.
  intros Hs%run_loop. apply loop_names_of in Hs as [_ Hs]. apply Hs. by right.
Qed.

Lemma run_alternates_witness :
  map fst (events (progress_of insistent_run))
  = loop_names (length (events (progress_of insistent_run))) "assistant" "tools".
Proof.
  apply (run_alternates insistent_llm 4%nat {[ "messages" := inputs ]}
           (stdout insistent_run) (progress_of insistent_run)).
  vm_compute. reflexivity.
Defined.

(** X6.  What a run prints is fixed by the steps it executed: the line of
    the assistant node followed by the line of the router for every
    assistant step, in order, and nothing for a tool-execution step. *)
Theorem run_prints
    (llm : list BaseMessage -> result BaseMessage)
    fuel (input : AgentState) out progress :
  stream (graph llm) fuel input = (out, Ok progress) ->
  out = concat (map (fun event => lines_of event.1) (events progress)).
Proof. intros Hs%run_loop. by eapply loop_lines. Qed.

Lemma run_prints_witness :
  stdout insistent_run
  = concat (map (fun event => lines_of event.1)
                (events (progress_of insistent_run))).
Proof.
  apply (run_prints insistent_llm 4%nat {[ "messages" := inputs ]}
           (stdout insistent_run) (progress_of insistent_run)).
  vm_compute. reflexivity.
Defined.

(** X7.  In every run, a tool-execution step comes right after an assistant
    step whose response carries a non-empty list of requests, and its update
    is the list of the ToolResult messages answering those requests, one per
    request and in their order; an assistant step comes first or right after
    a tool-execution step. *)
Theorem run_pairs_requests_and_results
    (llm : list BaseMessage -> result BaseMessage)
    fuel (input : AgentState) out progress :
  stream (graph llm) fuel input = (out, Ok progress) ->
  chained (follows tools) (events progress)
  /\ forall first rest, events progress = first :: rest -> first.1 = "assistant".
Proof.
  intros Hs%run_loop. split; [by eapply loop_chained|].
  intros first rest He. apply loop_names_of in Hs as [_ Hs].
  specialize (Hs ltac:(by right)). rewrite He in Hs. by injection Hs.
Qed.

Lemma run_pairs_requests_and_results_witness :
  chained (follows tools) (events (progress_of insistent_run))
  /\ forall first rest,
       events (progress_of insistent_run) = first :: rest ->
       first.1 = "assistant".
Proof.
  apply (run_pairs_requests_and_results insistent_llm 4%nat
           {[ "messages" := inputs ]}
           (stdout insistent_run) (progress_of insistent_run)).
  vm_compute. reflexivity.
Defined.

(** ** More on the division tool *)

Lemma int_true_divide_sign a b :
  int_true_divide a b
  = set_sign (xorb (a <? 0) (b <? 0)) <$> int_true_divide (Z.abs a) (Z.abs b).
Proof.
  unfold int_true_divide. rewrite !Z.abs_idemp.
  destruct (Z.eqb_spec b 0) as [->|Hb]; [done|].
  rewrite (proj2 (Z.eqb_neq (Z.abs b) 0)) by lia.
  destruct (Z.eqb_spec a 0) as [->|Ha]; [done|].
  rewrite (proj2 (Z.eqb_neq (Z.abs a) 0)) by lia.
  destruct (normalize _ _) as [m e].
  destruct (_ <? e); [done|]. by destruct (m =? 0).
Qed.

(** X10.  For a numerator that is not zero, negating one operand negates
    the result (or leaves the failure as it is), and negating both leaves
    the result unchanged. *)
Theorem divide_negated (a b : Z) :
  a <> 0 ->
  divide (- a) b = SFopp <$> divide a b
  /\ divide a (- b) = SFopp <$> divide a b
  /\ divide (- a) (- b) = divide a b.
Proof.
  intros Ha. unfold divide.
  rewrite (int_true_divide_sign (- a) b), (int_true_divide_sign a (- b)),
    (int_true_divide_sign (- a) (- b)), (int_true_divide_sign a b).
  rewrite !Z.abs_opp.
  assert (Hna : (- a <? 0) = negb (a <? 0)).
  { destruct (Z.ltb_spec a 0), (Z.ltb_spec (- a) 0); try done; lia. }
  destruct (Z.eq_dec b 0) as [->|Hb]; [done|].
  assert (Hnb : (- b <? 0) = negb (b <? 0)).
  { destruct (Z.ltb_spec b 0), (Z.ltb_spec (- b) 0); try done; lia. }
  rewrite Hna, Hnb.
  destruct (int_true_divide (Z.abs a) (Z.abs b)) as [[s|s| |s m e]|e];
    cbn; by destruct (a <? 0), (b <? 0).
Qed.

Lemma divide_negated_witness :
  divide (- 7) 2 = SFopp <$> divide 7 2
  /\ divide 7 (- 2) = SFopp <$> divide 7 2
  /\ divide (- 7) (- 2) = divide 7 2.
Proof. apply (divide_negated 7 2). discriminate. Defined.

Lemma round_half_even_zero N D :
  0 <= N -> 2 * N <= D -> round_half_even N D = 0.
Proof.
  intros HN HD. destruct (Z.eq_dec N 0) as [->|Hne].
  - destruct (Z.eq_dec D 0) as [->|]; [done|].
    unfold round_half_even. rewrite Z.mod_0_l, Z.div_0_l by done.
    destruct (Z.compare_spec (2 * 0) D); [done|done|lia].
  - unfold round_half_even.
    rewrite Z.mod_small, Z.div_small by lia.
    destruct (Z.compare_spec (2 * N) D); [done|done|lia].
Qed.

Lemma int_true_divide_underflow (a b : Z) :
  b <> 0 ->
  2 ^ 1075 * Z.abs a <= Z.abs b ->
  int_true_divide a b = Ok (S754_zero (xorb (a <? 0) (b <? 0))).
Proof.
  intros Hb Hsmall.
  destruct (Z.eq_dec a 0) as [->|Ha].
  { unfold int_true_divide. by rewrite (proj2 (Z.eqb_neq b 0)). }
  rewrite int_true_divide_nonzero by done. cbv zeta.
  set (e0 := Z.max _ emin).
  assert (He0 : emin <= e0) by (unfold e0; lia).
  assert (Hz : round_half_even (scaled_num (Z.abs a) e0) (scaled_den (Z.abs b) e0) = 0).
  { apply round_half_even_zero.
    - pose proof (scaled_num_pos (Z.abs a) e0). lia.
    - rewrite <- (Z.mul_1_l (scaled_den _ _)).
      apply (scaled_le_num_den 1074); [done|unfold emin in He0; lia|].
      unfold emin in He0.
      assert (Hp : 2 ^ 1075 * 2 ^ (1074 + -1074) = 2 * 2 ^ 1074) by done.
      assert (Hm : 2 ^ (1074 + -1074) <= 2 ^ (1074 + e0))
        by (apply Z.pow_le_mono_r; lia).
      assert (0 < 2 ^ 1074) by done.
      change (2 ^ (1074 + -1074)) with 1 in *.
      generalize dependent (2 ^ 1075). generalize dependent (2 ^ 1074).
      intros. nia. }
  assert (Hk : e0 <= emax - prec).
  { pose proof (floor_log2_quot_ge (Z.abs a) (Z.abs b) 1024
                  ltac:(lia) ltac:(lia) ltac:(lia)) as Hge.
    destruct (Z_le_gt_dec 1024 (floor_log2_quot (Z.abs a) (Z.abs b))) as [Hk|Hk].
    - apply Hge in Hk.
      assert (0 < 2 ^ 1024) by done. assert (1 < 2 ^ 1075) by done.
      generalize dependent (2 ^ 1075). generalize dependent (2 ^ 1024).
      intros. nia.
    - unfold e0, emin, emax, prec. lia. }
  rewrite Hz. unfold normalize.
  change (0 =? 2 ^ prec) with false. cbv iota.
  by rewrite (proj2 (Z.ltb_ge _ _)).
Qed.

(** X9.  The tool returns a zero exactly when the divisor is not zero and
    the quotient is at most [2^-1075] in magnitude: such a quotient
    underflows silently, to the zero that has the sign of the quotient, and
    no larger quotient is rounded to zero. *)
Theorem divide_zero_iff (a b : Z) (s : bool) :
  divide a b = Ok (S754_zero s)
  <-> b <> 0 /\ 2 ^ 1075 * Z.abs a <= Z.abs b /\ s = xorb (a <? 0) (b <? 0).
Proof.
  unfold divide. split.
  - intros Hz. destruct (Z.eq_dec b 0) as [->|Hb].
    { unfold int_true_divide in Hz. done. }
    split; [done|]. destruct (Z.eq_dec a 0) as [->|Ha].
    { unfold int_true_divide in Hz. rewrite (proj2 (Z.eqb_neq b 0)) in Hz by done.
      injection Hz as <-. split; [|done]. change (Z.abs 0) with 0. lia. }
    rewrite int_true_divide_nonzero in Hz by done. cbv zeta in Hz.
    destruct (rounded_quotient (Z.abs a) (Z.abs b)) as [Hover Hfit]; [lia..|].
    destruct (Z_le_gt_dec ((2 ^ 54 - 1) * (Z.abs b * 2 ^ 971)) (2 * Z.abs a))
      as [Ho|Ho].
    { apply Hover in Ho. destruct (normalize _ _) as [m e]. cbn [snd] in Ho.
      by rewrite (proj2 (Z.ltb_lt _ _) Ho) in Hz. }
    destruct (Hfit ltac:(lia)) as (m & e & Hn & He & Hm & Hnormal & Hlo & Hhi).
    rewrite Hn in Hz. rewrite (proj2 (Z.ltb_ge _ _)) in Hz by lia.
    destruct (Z.eqb_spec m 0) as [->|Hm0]; [|done].
    injection Hz as <-. split; [|done].
    assert (e = emin) as ->.
    { destruct (Z_le_gt_dec e emin); [lia|].
      assert (0 < 2 ^ (prec - 1)) by done. lia. }
    unfold scaled_num, scaled_den, emin in Hhi.
    change (2 ^ Z.max (- -1074) 0) with (2 ^ 1074) in Hhi.
    change (2 ^ Z.max (-1074) 0) with 1 in Hhi.
    change (2 ^ 1075) with (2 * 2 ^ 1074). lia.
  - intros (Hb & Hsmall & ->). by apply int_true_divide_underflow.
Qed.

Lemma round_half_even_exact c D : 0 < D -> round_half_even (c * D) D = c.
Proof.
  intros HD. apply Z.le_antisymm.
  - apply round_half_even_upper; lia.
  - apply round_half_even_lower; lia.
Qed.

(** X8.  When the divisor divides the numerator and the quotient is below
    [2^53] in magnitude, the tool returns the quotient exactly. *)
Theorem divide_exact_quotient (q b : Z) :
  b <> 0 ->
  Z.abs q < 2 ^ 53 ->
  exists f, divide (q * b) b = Ok f /\ is_finite f = true /\ exactly f q.
Proof.
  intros Hb Hq. unfold divide. destruct (Z.eq_dec q 0) as [->|Hq0].
  { exists (S754_zero (xorb (0 <? 0) (b <? 0))).
    unfold int_true_divide. by rewrite (proj2 (Z.eqb_neq b 0)). }
  assert (Ha : q * b <> 0) by lia.
  rewrite int_true_divide_nonzero by done. cbv zeta.
  rewrite Z.abs_mul.
  set (n := Z.abs q * Z.abs b). set (d := Z.abs b).
  assert (Hn : 0 < n) by (unfold n; lia). assert (Hd : 0 < d) by (unfold d; lia).
  pose proof (floor_log2_quot_ge n d 53 Hn Hd ltac:(lia)) as Hk.
  pose proof (quotient_range n d Hn Hd) as [HA HB].
  set (k := floor_log2_quot n d) in *.
  assert (Hk52 : k <= 52).
  { destruct (Z_le_gt_dec 53 k) as [Hge|]; [|lia].
    apply Hk in Hge. unfold n in Hge. nia. }
  unfold prec, emin in *. change (53 - 1) with 52 in *.
  set (e0 := Z.max (k - 52) (-1074)) in *.
  assert (He0 : -1074 <= e0 <= 0) by (unfold e0; lia).
  assert (HD : scaled_den d e0 = d).
  { unfold scaled_den. rewrite Z.max_r by lia. change (2 ^ 0) with 1. lia. }
  set (c := Z.abs q * 2 ^ (- e0)).
  assert (HN : scaled_num n e0 = c * d).
  { unfold scaled_num, n, c. rewrite Z.max_l by lia. lia. }
  assert (Hpow : 0 < 2 ^ (- e0)) by (apply Z.pow_pos_nonneg; lia).
  assert (Hc : 0 < c < 2 ^ 53).
  { split; [unfold c; nia|].
    rewrite HD, HN in HA, HB.
    destruct (Z_le_gt_dec (-1074) (k - 52)) as [Hcase|Hcase].
    - destruct (HA Hcase) as [_ Hlt]. nia.
    - specialize (HB ltac:(lia)). change (2 ^ 53) with (2 * 2 ^ 52).
      assert (0 < 2 ^ 52) by done. nia. }
  rewrite HD, HN, round_half_even_exact by done.
  unfold normalize, prec. rewrite (proj2 (Z.eqb_neq c (2 ^ 53))) by lia.
  unfold emax. rewrite (proj2 (Z.ltb_ge _ _)) by lia.
  rewrite (proj2 (Z.eqb_neq c 0)) by lia.
  eexists. split; [done|]. split; [done|].
  unfold exactly. cbn [mantissa exponent].
  unfold scaled_den, scaled_num. rewrite Z.max_r, Z.max_l by lia.
  change (2 ^ 0) with 1.
  assert (Hpos : Z.pos (Z.to_pos c) = c) by (apply Z2Pos.id; lia).
  assert (Hneg : Z.neg (Z.to_pos c) = - c) by (rewrite <- Pos2Z.opp_pos; lia).
  unfold c in *.
  destruct (Z.ltb_spec (q * b) 0), (Z.ltb_spec b 0); cbn [xorb];
    rewrite ?Hpos, ?Hneg; nia.
Qed.

Lemma divide_exact_quotient_witness :
  exists f, divide (4 * 15) 15 = Ok f /\ is_finite f = true /\ exactly f 4.
Proof.
  apply (divide_exact_quotient 4 15).
  - discriminate.
  - reflexivity.
Defined.

(** X16.  The tool fails in exactly two ways: with ZeroDivisionError when
    the divisor is zero, and with OverflowError when the divisor is not zero
    and the quotient reaches the overflow threshold. *)
Theorem divide_failures (a b : Z) (e : PyError) :
  divide a b = Raise e
  <-> (b = 0 /\ e = ZeroDivisionError)
      \/ (b <> 0 /\ overflows a b /\ e = OverflowError).
Proof.
  unfold divide. split.
  - intros Hr. destruct (Z.eq_dec b 0) as [->|Hb].
    { left. split; [done|]. unfold int_true_divide in Hr. by injection Hr. }
    right. split; [done|].
    destruct (Z_le_gt_dec (overflow_threshold * 2 ^ (emax - prec - 1) * Z.abs b)
                          (Z.abs a)) as [Ho|Ho].
    + split; [done|]. rewrite int_true_divide_overflow in Hr by done.
      by injection Hr.
    + destruct (int_true_divide_rounded a b Hb) as (f & Hf & _).
      { unfold overflows. lia. }
      by rewrite Hf in Hr.
  - intros [[-> ->]|(Hb & Ho & ->)]; [done|].
    by apply int_true_divide_overflow.
Qed.

(** ** The tool registry and the tool-execution step *)

(** X14.  The names of the three registered tools are distinct, so the
    lookup by name finds each registered tool under its own name, returns
    only a registered tool of the name asked for, and fails with UnknownTool
    for every other name. *)
Theorem registered_tools_by_name (name : string) :
  (forall t, In t tools -> find_tool tools (tool_name t) = Ok t)
  /\ (forall t, find_tool tools name = Ok t -> In t tools /\ tool_name t = name)
  /\ (name <> "add" -> name <> "multiply" -> name <> "divide" ->
      find_tool tools name = Raise UnknownTool).
Proof.
  split; [|split].
  - intros t [<-|[<-|[<-|[]]]]; reflexivity.
  - unfold find_tool. intros t Hf.
    destruct (find _ tools) as [t'|] eqn:E; [|done]. injection Hf as ->.
    apply find_some in E as [Hin Heq]. split; [done|].
    by apply String.eqb_eq.
  - intros Ha Hm Hd. unfold find_tool, tools. cbn [find tool_name add_tool multiply_tool divide_tool tool].
    rewrite (proj2 (String.eqb_neq "add" name)) by done.
    rewrite (proj2 (String.eqb_neq "multiply" name)) by done.
    by rewrite (proj2 (String.eqb_neq "divide" name)).
Qed.

Lemma registered_tools_by_name_witness :
  find_tool tools "subtract" = Raise UnknownTool.
Proof.
  apply (registered_tools_by_name "subtract"); discriminate.
Defined.



(** ** The reducer *)

(** X15.  Merging updates is associative and the empty update is neutral on
    both sides: merging two updates one after the other is merging their
    merge, so the state after several steps does not depend on how the
    updates are grouped. *)
Theorem apply_update_monoid (state update1 update2 : AgentState) :
  apply_update (apply_update state update1) update2
    = apply_update state (apply_update update1 update2)
  /\ apply_update state ∅ = state
  /\ apply_update ∅ state = state.
Proof.
  unfold apply_update, operator_add. split; [|split].
  - apply map_eq. intros key. rewrite !lookup_union_with.
    destruct (state !! key), (update1 !! key), (update2 !! key); cbn;
      by rewrite ?app_assoc.
  - apply map_eq. intros key. rewrite lookup_union_with, lookup_empty.
    by destruct (state !! key).
  - apply map_eq. intros key. rewrite lookup_union_with, lookup_empty.
    by destruct (state !! key).
Qed.

(** ** One turn *)

(** X12.  One turn, the assistant step followed by the router, on a state
    with messages and a model client that answers: the two lines are
    printed, the response is appended, and the next node is read off the
    response alone: "tools" for an Assistant message with a non-empty list
    of requests, END for one with an empty or absent list; a response of
    another kind makes the turn fail with AttributeError. *)
Theorem assistant_turn
    (llm : list BaseMessage -> result BaseMessage)
    (state : AgentState) messages response :
  state !! "messages" = Some messages ->
  llm messages = Ok response ->
  run_node (graph llm) "assistant" state
  = ([assistant_line; condition_line],
     calls ← tool_calls response;
     mret ({[ "messages" := [response] ]},
           apply_update state {[ "messages" := [response] ]},
           if truthy calls then Named "tools" else END)).
Proof.
  intros Hm Hl.
  assert (Hs : apply_update state {[ "messages" := [response] ]} !! "messages"
               = Some (messages ++ [response])).
  { apply apply_update_lookup; [done|by rewrite lookup_singleton_eq]. }
  unfold run_node, getitem. rewrite graph_nodes_assistant, io_bind_lift.
  rewrite assistant_node_eq. unfold getitem. rewrite Hm. cbn [mbind result_bind].
  rewrite Hl. cbn [mbind result_bind]. unfold mret at 1, result_ret.
  rewrite io_bind_ok, graph_route_assistant, (tools_condition_last _ _ _ Hs).
  destruct (tool_calls response) as [calls|e]; [|done].
  cbn [mbind result_bind]. unfold mret at 1, result_ret.
  by rewrite io_bind_ok.
Qed.

Lemma assistant_turn_witness :
  run_node (graph final_llm) "assistant" {[ "messages" := inputs ]}
  = ([assistant_line; condition_line],
     Ok ({[ "messages" := [AIMessage "75" None] ]},
         apply_update {[ "messages" := inputs ]}
           {[ "messages" := [AIMessage "75" None] ]},
         END)).
Proof.
  apply (assistant_turn final_llm {[ "messages" := inputs ]} inputs
           (AIMessage "75" None)); reflexivity.
Defined.

(** ** A run that is over stays over *)




(** ** What the model client is given *)

Lemma apply_update_empty_l (update : AgentState) : apply_update ∅ update = update.
Proof.
  unfold apply_update. apply map_eq. intros key.
  rewrite lookup_union_with, lookup_empty. by destruct (update !! key).
Qed.

Lemma loop_history llm node (state : AgentState) out evs pos final :
  loop llm node state out evs pos final ->
  forall messages earlier update later,
    state !! "messages" = Some messages ->
    evs = earlier ++ ("assistant", update) :: later ->
    exists response,
      update = {[ "messages" := [response] ]}
      /\ llm (messages ++ concat (map (fun event => messages_of event.2) earlier))
         = Ok response.
Proof.
  induction 1 as [node state|state out evs pos final H IH
                  |state messages' response next out evs pos final Hm Hl Hc H IH
                  |state before content calls results out evs pos final Hm Hr H IH];
    intros messages earlier update later Hs He.
  - by destruct earlier.
  - by eapply IH.
  - rewrite Hm in Hs. injection Hs as <-.
    destruct earlier as [|event earlier]; cbn in He; injection He as He1 He2.
    + subst. exists response. cbn. by rewrite app_nil_r.
    + subst event.
      destruct (IH (messages' ++ [response]) earlier update later)
        as (r & -> & Hr); [|done|].
      { apply apply_update_lookup; [done|by rewrite lookup_singleton_eq]. }
      exists r. split; [done|]. cbn [map concat snd].
      unfold messages_of at 1. rewrite lookup_singleton_eq. cbn [default].
      by rewrite app_assoc.
  - rewrite Hm in Hs. injection Hs as <-.
    destruct earlier as [|event earlier]; cbn in He; injection He as He1 He2;
      [done|].
    subst event.
    destruct (IH ((before ++ [AIMessage content calls]) ++ results)
                earlier update later) as (r & -> & Hr'); [|done|].
    { apply apply_update_lookup; [done|by rewrite lookup_singleton_eq]. }
    exists r. split; [done|]. cbn [map concat snd].
    unfold messages_of at 1. rewrite lookup_singleton_eq. cbn [default].
    by rewrite app_assoc.
Qed.

(** X17.  At every assistant step of a run the model client is given the
    whole conversation so far: the input messages followed by the messages
    of every earlier step, in order; the update of the step is the one
    message it answers. *)
Theorem model_sees_whole_conversation
    (llm : list BaseMessage -> result BaseMessage)
    fuel (input : AgentState) out progress messages earlier update later :
  stream (graph llm) fuel input = (out, Ok progress) ->
  input !! "messages" = Some messages ->
  events progress = earlier ++ ("assistant", update) :: later ->
  exists response,
    update = {[ "messages" := [response] ]}
    /\ llm (messages ++ concat (map (fun event => messages_of event.2) earlier))
       = Ok response.
Proof.
  unfold stream. rewrite apply_update_empty_l. intros Hs%run_loop Hm He.
  by eapply loop_history.
Qed.

Lemma model_sees_whole_conversation_witness :
  exists response,
    ({[ "messages" := [AIMessage "" (Some [sample_call])] ]} : AgentState)
      = {[ "messages" := [response] ]}
    /\ insistent_llm
         (inputs ++ concat (map (fun event : string * AgentState =>
                                   messages_of event.2)
                                (take 2 (events (progress_of insistent_run)))))
       = Ok response.
Proof.
  apply (model_sees_whole_conversation insistent_llm 4%nat
           {[ "messages" := inputs ]}
           (stdout insistent_run) (progress_of insistent_run) inputs
           (take 2 (events (progress_of insistent_run)))
           {[ "messages" := [AIMessage "" (Some [sample_call])] ]}
           (drop 3 (events (progress_of insistent_run))));
    vm_compute; reflexivity.
Defined.
